(** * Metro: the HMR bundle serializer
    (packages/metro/src/DeltaBundler/Serializers/hmrJSBundle.js)

    A shallow embedding of [hmrJSBundle], [generateModules], [_prepareModule]
    and [_getInverseDependencies], followed by the properties of the payload
    and of the inverse-dependency traversal.

    Conventions of the embedding.
    - A JS object used as a dictionary is its table of own properties in
      insertion order ([JsObject.t]).  Module paths are file paths, so the
      keys are neither array indices nor names inherited from
      [Object.prototype]: [k in o] is membership among the own keys and
      [Object.keys] enumerates in insertion order.
    - [graph.dependencies] is a JS [Map] that is only ever read with [.get];
      it is a [gmap].  The [Map]s and [Set]s that the code iterates
      ([delta.added], [delta.modified], [delta.deleted],
      [module.inverseDependencies]) are the lists of their enumeration.
    - Module ids ([number] in the Flow types) are integers.
    - The recursion of [_getInverseDependencies] is not structural; it takes
      a fuel argument, and [OutOfFuel] is kept apart from a JS exception. *)

From stdpp Require Import strings gmap list pretty.
From Stdlib Require Import ZArith.

Set Default Proof Using "Type".
Local Open Scope string_scope.
Local Open Scope list_scope.
Local Open Scope nat_scope.

(** ** Completions: how a call ends *)

Inductive completion (A : Type) : Type :=
  | Return (a : A)      (* the call returns [a] *)
  | TypeError           (* property access on [undefined] *)
  | OutOfFuel.          (* the model ran out of fuel; not a JS behaviour *)
Arguments Return {A} a.
Arguments TypeError {A}.
Arguments OutOfFuel {A}.

#[global] Instance completion_bind : MBind completion := λ A B k c,
  match c with
  | Return a => k a
  | TypeError => TypeError
  | OutOfFuel => OutOfFuel
  end.

(** [for (const x of xs) { s = body(x, s) }] *)
Fixpoint for_of {A S} (xs : list A) (body : A → S → completion S) (s : S)
  : completion S :=
  match xs with
  | [] => Return s
  | x :: xs => s' ← body x s ; for_of xs body s'
  end.

(** ** JS objects as insertion-ordered property tables *)

Module JsObject.
Section Table.
Context {K V : Type} `{EqDecision K}.

Definition t : Type := list (K * V).

(** [{}] and [Object.create(null)] *)
Definition empty : t := [].

(** [Object.keys(o)] *)
Definition keys (o : t) : list K := o.*1.

(** [k in o] *)
Definition has (k : K) (o : t) : bool := bool_decide (k ∈ keys o).

(** [o[k]]; [None] is [undefined] *)
Fixpoint get (k : K) (o : t) : option V :=
  match o with
  | [] => None
  | (k', v) :: o => if decide (k' = k) then Some v else get k o
  end.

(** [o[k] = v]: an existing property keeps its place, a new one goes
    last. *)
Fixpoint set (k : K) (v : V) (o : t) : t :=
  match o with
  | [] => [(k, v)]
  | (k', v') :: o =>
      if decide (k' = k) then (k', v) :: o else (k', v') :: set k v o
  end.
End Table.
Arguments t : clear implicits.

(** [o[k].push(x)], for a table of arrays; [undefined.push] throws. *)
Fixpoint push {K A} `{EqDecision K} (k : K) (x : A) (o : t K (list A))
  : completion (t K (list A)) :=
  match o with
  | [] => TypeError
  | (k', v) :: o =>
      if decide (k' = k) then Return ((k', v ++ [x]) :: o)
      else o' ← push k x o ; Return ((k', v) :: o')
  end.
End JsObject.

(** ** Data model (types.flow) *)

Definition ModuleId : Type := Z.

(** [Module<T>]: [T] is the type of the outputs, opaque to this file. *)
Module Mod.
Record t (T : Type) : Type := Build {
  path : string;
  inverseDependencies : list string;   (* Set<string>, as enumerated *)
  output : list T;
}.
Arguments Build {T}.
Arguments path {T}.
Arguments inverseDependencies {T}.
Arguments output {T}.
End Mod.

Record Graph (T : Type) : Type := {
  dependencies : gmap string (Mod.t T);
}.
Arguments dependencies {T}.

Record DeltaResult (T : Type) : Type := {
  delta_added : list (string * Mod.t T);      (* Map<string, Module<T>> *)
  delta_modified : list (string * Mod.t T);   (* Map<string, Module<T>> *)
  delta_deleted : list string;                (* Set<string> *)
}.
Arguments delta_added {T}.
Arguments delta_modified {T}.
Arguments delta_deleted {T}.

(** [m.values()] of a JS [Map] *)
Definition values {K V} (m : list (K * V)) : list V := m.*2.

Definition InverseDependencyMap : Type := JsObject.t string (list string).

(** ** _getInverseDependencies (lines 145-169) *)

Fixpoint _getInverseDependencies {T} (fuel : nat) (path : string)
    (graph : Graph T) (inverseDependencies : InverseDependencyMap)
  : completion InverseDependencyMap :=
  match fuel with
  | O => OutOfFuel
  | S fuel =>
      if JsObject.has path inverseDependencies then Return inverseDependencies
      else
        match dependencies graph !! path with
        | None => Return inverseDependencies
        | Some module =>
            let inverseDependencies :=
              JsObject.set path [] inverseDependencies in
            for_of (Mod.inverseDependencies module)
              (fun inverse inverseDependencies =>
                 inverseDependencies ←
                   JsObject.push path inverse inverseDependencies ;
                 _getInverseDependencies fuel inverse graph inverseDependencies)
              inverseDependencies
        end
  end.

(** The call [_getInverseDependencies(path, graph)] of line 126, with the
    default accumulator [{}].  One unit of fuel per module of the graph, and
    one more, is enough (see [getInverseDependencies_total]). *)
Definition getInverseDependencies {T} (path : string) (graph : Graph T)
  : completion InverseDependencyMap :=
  _getInverseDependencies (S (size (dependencies graph))) path graph
    JsObject.empty.

(** The same function with the two observable steps of an expansion
    recorded: the lookup [graph.dependencies.get(path)] of line 155 and the
    assignment [inverseDependencies[path] = []] of line 160. *)
Inductive event : Type :=
  | GraphGet (path : string)
  | Expand (path : string).

#[global] Instance event_eq_dec : EqDecision event.
Proof. solve_decision. Defined.

Fixpoint _getInverseDependencies_traced {T} (fuel : nat) (path : string)
    (graph : Graph T) (st : InverseDependencyMap * list event)
  : completion (InverseDependencyMap * list event) :=
  match fuel with
  | O => OutOfFuel
  | S fuel =>
      let '(inverseDependencies, trace) := st in
      if JsObject.has path inverseDependencies then Return st
      else
        let trace := trace ++ [GraphGet path] in
        match dependencies graph !! path with
        | None => Return (inverseDependencies, trace)
        | Some module =>
            let inverseDependencies :=
              JsObject.set path [] inverseDependencies in
            let trace := trace ++ [Expand path] in
            for_of (Mod.inverseDependencies module)
              (fun inverse '(inverseDependencies, trace) =>
                 inverseDependencies ←
                   JsObject.push path inverse inverseDependencies ;
                 _getInverseDependencies_traced fuel inverse graph
                   (inverseDependencies, trace))
              (inverseDependencies, trace)
        end
  end.

Definition getInverseDependencies_traced {T} (path : string) (graph : Graph T)
  : completion (InverseDependencyMap * list event) :=
  _getInverseDependencies_traced (S (size (dependencies graph))) path graph
    (JsObject.empty, []).

(** ** Options and the collaborators of the serializer *)

(** [EntryPointURL] (HmrServer.js) is a URL object of Node's [url] module;
    these are the components [url.format] reads.  Only [pathname] is
    written by this file. *)
Record EntryPointURL : Type := {
  protocol : string;
  host : string;
  pathname : string;
  search : string;
  hash : string;
}.

(** [createModuleId] is the injected id function: the same id for the same
    path at every call. *)
Record Options : Type := {
  clientUrl : EntryPointURL;
  createModuleId : string → ModuleId;
  projectRoot : string;
}.

(** [options.clientUrl.pathname = v] *)
Definition set_clientUrl_pathname (v : string) (options : Options) : Options :=
  {| clientUrl :=
       {| protocol := protocol (clientUrl options);
          host := host (clientUrl options);
          pathname := v;
          search := search (clientUrl options);
          hash := hash (clientUrl options) |};
     createModuleId := createModuleId options;
     projectRoot := projectRoot options |}.

Definition ModuleMap : Type := list (ModuleId * string).

(** The object built at lines 129-134, keyed by ids; it is handed to
    [addParamsToDefineCall] as the table of its assignments. *)
Definition InverseDependenciesById : Type :=
  JsObject.t ModuleId (list ModuleId).

(** What the file requires from elsewhere: helpers/js, helpers/
    getSourceMapInfo, helpers/getInlineSourceMappingURL,
    lib/addParamsToDefineCall, metro-source-map, and Node's [path] and [url].
    None of them writes to its arguments. *)
Class Helpers (T : Type) : Type := {
  MapInfo : Type;
  mapInfo_path : MapInfo → string;
  (* isJsModule(module) *)
  isJsModule : Mod.t T → bool;
  (* wrapModule(module, {...options, dev}) *)
  wrapModule : Mod.t T → Options → bool → string;
  (* getSourceMapInfo(module, {excludeSource}) *)
  getSourceMapInfo : Mod.t T → bool → MapInfo;
  (* fromRawMappings(infos).toString(undefined, {excludeSource}) *)
  fromRawMappings_toString : list MapInfo → bool → string;
  getInlineSourceMappingURL : string → string;
  (* addParamsToDefineCall(code, param) *)
  addParamsToDefineCall : string → InverseDependenciesById → string;
  path_relative : string → string → string;
  path_join : string → string → string;
  path_dirname : string → string;
  path_basename : string → string → string;
  path_extname : string → string;
  url_format : EntryPointURL → string;
}.

Record Generated : Type := {
  modules : ModuleMap;
  sourceMappingURLs : list string;
  sourceURLs : list string;
}.

Record HMRPayload : Type := {
  added : ModuleMap;
  modified : ModuleMap;
  deleted : list ModuleId;
  addedSourceMappingURLs : list string;
  addedSourceURLs : list string;
  modifiedSourceMappingURLs : list string;
  modifiedSourceURLs : list string;
}.

Section Serializer.
Context {T : Type} {helpers : Helpers T}.

(** Lines 128-134: the path-keyed map translated to ids, key by key in
    the order of [Object.keys]. *)
Definition translateInverseDependencies (options : Options)
    (inverseDependencies : InverseDependencyMap)
  : completion InverseDependenciesById :=
  for_of (JsObject.keys inverseDependencies)
    (fun path inverseDependenciesById =>
       match JsObject.get path inverseDependencies with
       | None => TypeError
       | Some inverses =>
           Return (JsObject.set (createModuleId options path)
                     (map (createModuleId options) inverses)
                     inverseDependenciesById)
       end)
    JsObject.empty.

(** Lines 116-137 *)
Definition _prepareModule (module : Mod.t T) (graph : Graph T)
    (options : Options) : completion string :=
  let code := wrapModule module options true in
  inverseDependencies ← getInverseDependencies (Mod.path module) graph ;
  inverseDependenciesById ←
    translateInverseDependencies options inverseDependencies ;
  Return (addParamsToDefineCall code inverseDependenciesById).

(** Lines 32-77.  The caller's [options] object is written at line 62, so
    it is threaded through the loop and returned. *)
Definition generateModules (sourceModules : list (Mod.t T))
    (graph : Graph T) (options : Options)
  : completion (Generated * Options) :=
  for_of sourceModules
    (fun module '(acc, options) =>
       if isJsModule module then
         code ← _prepareModule module graph options ;
         let mapInfo := getSourceMapInfo module false in
         let sourceMappingURLs :=
           sourceMappingURLs acc
             ++ [getInlineSourceMappingURL
                   (fromRawMappings_toString [mapInfo] false)] in
         let options :=
           set_clientUrl_pathname
             (path_relative (projectRoot options)
                (path_join (path_dirname (mapInfo_path mapInfo))
                   (path_basename (mapInfo_path mapInfo)
                      (path_extname (mapInfo_path mapInfo)) +:+ ".bundle")))
             options in
         let sourceURLs :=
           sourceURLs acc ++ [url_format (clientUrl options)] in
         let modules :=
           modules acc
             ++ [(createModuleId options (Mod.path module), code)] in
         Return ({| modules := modules;
                    sourceMappingURLs := sourceMappingURLs;
                    sourceURLs := sourceURLs |}, options)
       else Return (acc, options))
    ({| modules := []; sourceMappingURLs := []; sourceURLs := [] |},
     options).

(** Lines 79-114 *)
Definition hmrJSBundle (delta : DeltaResult T) (graph : Graph T)
    (options : Options) : completion (HMRPayload * Options) :=
  '(a, options) ← generateModules (values (delta_added delta)) graph options ;
  '(m, options) ←
    generateModules (values (delta_modified delta)) graph options ;
  Return ({| added := modules a;
             modified := modules m;
             deleted := map (fun path => createModuleId options path)
                          (delta_deleted delta);
             addedSourceMappingURLs := sourceMappingURLs a;
             addedSourceURLs := sourceURLs a;
             modifiedSourceMappingURLs := sourceMappingURLs m;
             modifiedSourceURLs := sourceURLs m |}, options).
End Serializer.

(** * Vocabulary of the statements *)

Section TraversalVocabulary.
Context {T : Type} (graph : Graph T).
Implicit Types (acc new post : InverseDependencyMap) (path : string).

(** Modules of the graph that are not yet keys of the accumulator: the
    quantity that decreases at every expansion. *)
Definition unvisited acc : nat :=
  size (dom (dependencies graph)
          ∖ list_to_set (C := gset string) (JsObject.keys acc)).

(** Every entry is a module of the graph together with all its inverse
    dependencies, in their order. *)
Definition complete new : Prop :=
  Forall (λ e, ∃ module, dependencies graph !! e.1 = Some module
                         ∧ e.2 = Mod.inverseDependencies module) new.

(** The body of the loop of lines 162-166. *)
Definition visit (fuel : nat) path (inverse : string) acc
  : completion InverseDependencyMap :=
  acc ← JsObject.push path inverse acc ;
  _getInverseDependencies fuel inverse graph acc.

(** Is [path] a module of the graph? *)
Definition known (path : string) : Prop :=
  is_Some (dependencies graph !! path).

(** Every inverse dependency listed in [new] that the graph knows is among
    the keys [ks]. *)
Definition closed_in (ks : list string) new : Prop :=
  Forall (λ e, ∀ x, x ∈ e.2 → known x → x ∈ ks) new.

End TraversalVocabulary.

(** How often [x] occurs in [l]. *)
Definition occurrences {A} `{EqDecision A} (x : A) (l : list A) : nat :=
  length (filter (λ y, y = x) l).

(** Forgetting the trace. *)
Definition erase {A B} (c : completion (A * B)) : completion A :=
  '(a, _) ← c ; Return a.

Definition expansions (trace : list event) : list string :=
  omap (λ e, match e with Expand p => Some p | GraphGet _ => None end) trace.

Definition lookups (trace : list event) : list string :=
  omap (λ e, match e with GraphGet p => Some p | Expand _ => None end) trace.

(** Two option objects that differ at most in [clientUrl.pathname]. *)
Definition up_to_pathname (options options' : Options) : Prop :=
  ∀ v, set_clientUrl_pathname v options = set_clientUrl_pathname v options'.


Section SerializerVocabulary.
Context {T : Type} {helpers : Helpers T}.
Implicit Types (module : Mod.t T) (graph : Graph T) (options : Options).

(** Lines 62-68: the bundle path of a module, relative to the project
    root. *)
Definition bundlePath options module : string :=
  let mapInfo := getSourceMapInfo module false in
  path_relative (projectRoot options)
    (path_join (path_dirname (mapInfo_path mapInfo))
       (path_basename (mapInfo_path mapInfo)
          (path_extname (mapInfo_path mapInfo)) +:+ ".bundle")).

(** Lines 53-59: the inline source map of a module. *)
Definition sourceMappingURL module : string :=
  getInlineSourceMappingURL
    (fromRawMappings_toString [getSourceMapInfo module false] false).

(** Lines 62-70: the source URL of a module, the client URL with the
    bundle path of the module as its pathname. *)
Definition sourceURL options module : string :=
  url_format
    (clientUrl (set_clientUrl_pathname (bundlePath options module) options)).

(** The options object after the loop of [generateModules] has gone
    through the eligible modules [js]. *)
Definition options_after options (js : list (Mod.t T)) : Options :=
  foldl (λ options module,
           set_clientUrl_pathname (bundlePath options module) options)
    options js.

(** [records] are the update records of the eligible modules [js], each
    prepared with the options object as the loop finds it. *)
Fixpoint prepared graph options (js : list (Mod.t T)) (records : ModuleMap)
  : Prop :=
  match js with
  | [] => records = []
  | module :: js =>
      ∃ code records',
        records = (createModuleId options (Mod.path module), code) :: records'
        ∧ _prepareModule module graph options = Return code
        ∧ prepared graph
            (set_clientUrl_pathname (bundlePath options module) options)
            js records'
  end.

(** One turn of the loop of [generateModules] (lines 45-74), on the pair
    of the three arrays and the options object. *)
Definition generateModules_step graph module (state : Generated * Options)
  : completion (Generated * Options) :=
  let '(acc, options) := state in
  if isJsModule module then
    code ← _prepareModule module graph options ;
    Return
      ({| modules :=
            modules acc ++ [(createModuleId options (Mod.path module), code)];
          sourceMappingURLs :=
            sourceMappingURLs acc ++ [sourceMappingURL module];
          sourceURLs := sourceURLs acc ++ [sourceURL options module] |},
       set_clientUrl_pathname (bundlePath options module) options)
  else Return (acc, options).

(** Index alignment of one family of arrays with the eligible modules [js]
    it was built from: [options] is the caller's object, [start] its state
    when the loop begins. *)
Definition aligned graph options (start : Options) (js : list (Mod.t T))
    (records : ModuleMap) (mappingURLs sourceURLs : list string) : Prop :=
  length records = length js
  ∧ length mappingURLs = length js
  ∧ length sourceURLs = length js
  ∧ ∀ i module, js !! i = Some module →
      ∃ code,
        records !! i = Some (createModuleId options (Mod.path module), code)
        ∧ _prepareModule module graph (options_after start (take i js))
          = Return code
        ∧ mappingURLs !! i = Some (sourceMappingURL module)
        ∧ sourceURLs !! i = Some (sourceURL options module).

(** The caller's three objects, before and after a call.  The file assigns
    to [options.clientUrl.pathname] only, and the collaborators write to
    none of their arguments: a call leaves [delta] and [graph] as they
    were. *)
Record Store : Type := {
  store_delta : DeltaResult T;
  store_graph : Graph T;
  store_options : Options;
}.

Definition call_hmrJSBundle (store : Store) : completion (HMRPayload * Store) :=
  '(payload, options) ←
    hmrJSBundle (store_delta store) (store_graph store) (store_options store) ;
  Return (payload,
          {| store_delta := store_delta store;
             store_graph := store_graph store;
             store_options := options |}).

End SerializerVocabulary.

(** * Concrete inputs *)

Module Examples.

(** An output is its type and its code. *)
Definition Output : Type := string * string.

Definition jsModule (path code : string) (inverses : list string)
  : Mod.t Output :=
  Mod.Build path inverses [("js/module", code)].

Definition assetModule (path : string) (inverses : list string)
  : Mod.t Output :=
  Mod.Build path inverses [("image/png", EmptyString)].

Definition graphOf (modules : list (Mod.t Output)) : Graph Output :=
  {| dependencies := list_to_map ((λ m, (Mod.path m, m)) <$> modules) |}.

(** [cut_last c s]: [s] split at the last occurrence of the character
    [c]. *)
Fixpoint cut_last (c : string) (s : string) : option (string * string) :=
  match s with
  | EmptyString => None
  | String a s' =>
      match cut_last c s' with
      | Some (l, r) => Some (String a l, r)
      | None =>
          if String.eqb (String a EmptyString) c then Some (EmptyString, s')
          else None
      end
  end.

Definition fileName (p : string) : string :=
  match cut_last "/" p with Some (_, f) => f | None => p end.

Definition renderIds (ids : list ModuleId) : string :=
  "[" +:+ String.concat "," (pretty <$> ids) +:+ "]".

(** Stand-ins for the collaborators, enough to run the serializer. *)
#[global] Instance helpers : Helpers Output := {|
  MapInfo := string;
  mapInfo_path := id;
  isJsModule m :=
    existsb (λ o : Output, String.prefix "js/" o.1) (Mod.output m);
  wrapModule m options dev :=
    "__d(function(){" +:+ String.concat EmptyString (snd <$> Mod.output m)
      +:+ "}," +:+ pretty (createModuleId options (Mod.path m)) +:+ ")";
  getSourceMapInfo m excludeSource := Mod.path m;
  fromRawMappings_toString infos excludeSource :=
    "{sources:" +:+ String.concat "," infos +:+ "}";
  getInlineSourceMappingURL map := "data:application/json," +:+ map;
  addParamsToDefineCall code byId :=
    code +:+ ",{"
      +:+ String.concat ","
            ((λ e : ModuleId * list ModuleId,
                pretty e.1 +:+ ":" +:+ renderIds e.2) <$> byId)
      +:+ "}";
  path_relative root p :=
    if String.prefix (root +:+ "/") p
    then String.substring (String.length root + 1)
           (String.length p - String.length root - 1) p
    else p;
  path_join a b := a +:+ "/" +:+ b;
  path_dirname p :=
    match cut_last "/" p with Some (d, _) => d | None => "." end;
  path_basename p ext :=
    match cut_last "." (fileName p) with
    | Some (b, e) => if String.eqb ("." +:+ e) ext then b else fileName p
    | None => fileName p
    end;
  path_extname p :=
    match cut_last "." (fileName p) with
    | Some (_, e) => "." +:+ e
    | None => EmptyString
    end;
  url_format u :=
    protocol u +:+ "//" +:+ host u +:+ "/" +:+ pathname u +:+ search u
      +:+ hash u;
|}.

Definition ids : list (string * ModuleId) :=
  [("/root/a.js", 1); ("/root/b.js", 2); ("/root/c.js", 3);
   ("/root/d.js", 4); ("/root/logo.png", 5); ("/a.js", 1); ("/b.js", 2)]%Z.

Definition options : Options :=
  {| clientUrl :=
       {| protocol := "http:"; host := "localhost:8081";
          pathname := "index.bundle"; search := "?platform=ios";
          hash := EmptyString |};
     createModuleId path :=
       default 0%Z (JsObject.get path ids);
     projectRoot := "/root" |}.

(** A cycle: a.js is imported by b.js and b.js by a.js. *)
Definition cycle : Graph Output :=
  graphOf [jsModule "/root/a.js" "a()" ["/root/b.js"];
           jsModule "/root/b.js" "b()" ["/root/a.js"]].

(** A diamond: a.js is imported by b.js and c.js, both imported by d.js. *)
Definition diamond : Graph Output :=
  graphOf [jsModule "/root/a.js" "a()" ["/root/b.js"; "/root/c.js"];
           jsModule "/root/b.js" "b()" ["/root/d.js"];
           jsModule "/root/c.js" "c()" ["/root/d.js"];
           jsModule "/root/d.js" "d()" []].

(** b.js is imported by a module that the graph does not have. *)
Definition pruned : Graph Output :=
  graphOf [jsModule "/root/b.js" "b()" ["/root/gone.js"]].

Definition delta : DeltaResult Output :=
  {| delta_added :=
       [("/root/d.js", jsModule "/root/d.js" "d()" []);
        ("/root/logo.png", assetModule "/root/logo.png" ["/root/d.js"])];
     delta_modified :=
       [("/root/a.js",
         jsModule "/root/a.js" "a()" ["/root/b.js"; "/root/c.js"])];
     delta_deleted := ["/a.js"; "/b.js"] |}.

End Examples.

(** * Vocabulary of the further properties *)

(** [reaches graph start p]: [p] is [start], or a module that imports,
    through modules of the graph, the module [start]: a chain of inverse
    dependencies leads from [start] to [p], every path on it being a module
    of the graph. *)
Inductive reaches {T} (graph : Graph T) (start : string) : string → Prop :=
  | reaches_start :
      known graph start → reaches graph start start
  | reaches_inverse p module x :
      reaches graph start p →
      dependencies graph !! p = Some module →
      x ∈ Mod.inverseDependencies module →
      known graph x →
      reaches graph start x.

(** What a resolution from [start] asks the graph for: [start] itself and
    the inverse dependencies of the modules it reaches. *)
Definition queried {T} (graph : Graph T) (start p : string) : Prop :=
  p = start
  ∨ ∃ q module, reaches graph start q
                ∧ dependencies graph !! q = Some module
                ∧ p ∈ Mod.inverseDependencies module.

(** The number of inverse dependencies listed in a map. *)
Definition listed (o : InverseDependencyMap) : nat :=
  sum_list_with (λ e : string * list string, length e.2) o.

(** One entry of the path-keyed map, translated to ids (lines 131-133). *)
Definition translateEntry (options : Options) (e : string * list string)
  : ModuleId * list ModuleId :=
  (createModuleId options e.1, map (createModuleId options) e.2).

Module Scenarios.

(** Two paths with the same id: /a.js, imported by /root/a.js. *)
Definition collide : Graph Examples.Output :=
  Examples.graphOf
    [Examples.jsModule "/a.js" "x()" ["/root/a.js"];
     Examples.jsModule "/root/a.js" "a()" []].

(** The diamond and a module that nothing in it is imported by. *)
Definition diamondAndMore : Graph Examples.Output :=
  Examples.graphOf
    [Examples.jsModule "/root/a.js" "a()" ["/root/b.js"; "/root/c.js"];
     Examples.jsModule "/root/b.js" "b()" ["/root/d.js"];
     Examples.jsModule "/root/c.js" "c()" ["/root/d.js"];
     Examples.jsModule "/root/d.js" "d()" [];
     Examples.jsModule "/root/z.js" "z()" ["/root/a.js"]].

(** A delta without a JS module. *)
Definition assetsOnly : DeltaResult Examples.Output :=
  {| delta_added :=
       [("/root/logo.png",
         Examples.assetModule "/root/logo.png" ["/root/d.js"])];
     delta_modified := [];
     delta_deleted := ["/a.js"] |}.

End Scenarios.

(** * Properties *)

(** ** Completions and loops *)

Lemma bind_Return {A B} (c : completion A) (k : A → completion B) (b : B) :
  c ≫= k = Return b ↔ ∃ a, c = Return a ∧ k a = Return b.
Proof.
  destruct c; simpl; split; try done; try (by intros (? & ? & ?)).
  - eauto.
  - by intros (a' & [= ->] & ?).
Qed.

Lemma bind_Return_l {A B} (a : A) (k : A → completion B) :
  Return a ≫= k = k a.
Proof. reflexivity. Qed.

(** A loop whose body returns more often returns more often. *)
Lemma for_of_mono {A S} (xs : list A) (body body' : A → S → completion S)
    s r :
  (∀ x s r, body x s = Return r → body' x s = Return r) →
  for_of xs body s = Return r → for_of xs body' s = Return r.
Proof.
  intros Hb. revert s. induction xs as [|x xs IH]; intros s; simpl; [done|].
  intros (s' & Hs' & Hr)%bind_Return.
  rewrite (Hb _ _ _ Hs'). simpl. auto.
Qed.

(** ** Property tables *)

Section TableFacts.
Context {K V : Type} `{EqDecision K}.
Implicit Types (o : JsObject.t K V) (k : K).

Lemma has_true k o : JsObject.has k o = true ↔ k ∈ JsObject.keys o.
Proof. unfold JsObject.has. apply bool_decide_eq_true. Qed.

Lemma has_false k o : JsObject.has k o = false ↔ k ∉ JsObject.keys o.
Proof. unfold JsObject.has. apply bool_decide_eq_false. Qed.

Lemma keys_app o1 o2 :
  JsObject.keys (o1 ++ o2) = JsObject.keys o1 ++ JsObject.keys o2.
Proof. unfold JsObject.keys. apply fmap_app. Qed.

Lemma set_fresh k v o :
  k ∉ JsObject.keys o → JsObject.set k v o = o ++ [(k, v)].
Proof.
  induction o as [|[k' v'] o IH]; simpl; [done|].
  intros [Hne Hnin]%not_elem_of_cons.
  destruct (decide (k' = k)); [congruence|]. by rewrite IH.
Qed.

End TableFacts.

Lemma push_middle {K A} `{EqDecision K} (k : K) (x : A) v o1 o2 :
  k ∉ JsObject.keys o1 →
  JsObject.push k x (o1 ++ (k, v) :: o2) = Return (o1 ++ (k, v ++ [x]) :: o2).
Proof.
  induction o1 as [|[k' v'] o1 IH]; simpl.
  - intros _. by rewrite decide_True.
  - intros [Hne Hnin]%not_elem_of_cons.
    rewrite decide_False by congruence. by rewrite IH.
Qed.

Lemma push_keys {K A} `{EqDecision K} (k : K) (x : A) o o' :
  JsObject.push k x o = Return o' → JsObject.keys o' = JsObject.keys o.
Proof.
  revert o'. induction o as [|[k' v'] o IH]; intros o'; simpl; [done|].
  destruct (decide (k' = k)).
  - by intros [= <-].
  - intros (o'' & Ho'' & [= <-])%bind_Return. simpl. f_equal. eauto.
Qed.

(** ** The inverse-dependency traversal *)

(** Removing one more element of [d] makes the difference one smaller. *)
Lemma size_difference_step (d ks : gset string) (k : string) :
  k ∈ d → k ∉ ks → size (d ∖ ks) = S (size (d ∖ (ks ∪ {[k]}))).
Proof.
  intros Hd Hks.
  assert (Heq : d ∖ ks = {[k]} ∪ d ∖ (ks ∪ {[k]})).
  { apply set_eq. intros k'. destruct (decide (k' = k)); set_solver. }
  rewrite Heq. rewrite size_union by set_solver. by rewrite size_singleton.
Qed.


Section Traversal.
Context {T : Type} (graph : Graph T).
Implicit Types (acc new post : InverseDependencyMap) (path : string).

Lemma unvisited_mono acc acc' :
  JsObject.keys acc ⊆ JsObject.keys acc' →
  unvisited graph acc' ≤ unvisited graph acc.
Proof.
  intros Hsub. unfold unvisited. apply subseteq_size.
  apply difference_mono_l. intros k. rewrite !elem_of_list_to_set. apply Hsub.
Qed.

Lemma unvisited_expand acc path v :
  path ∉ JsObject.keys acc → is_Some (dependencies graph !! path) →
  S (unvisited graph (acc ++ [(path, v)])) = unvisited graph acc.
Proof.
  intros Hnin Hin. unfold unvisited. rewrite keys_app. simpl.
  rewrite list_to_set_app_L. simpl. rewrite union_empty_r_L.
  symmetry. apply size_difference_step.
  - by apply elem_of_dom.
  - by rewrite elem_of_list_to_set.
Qed.

Lemma visit_unfold fuel path inverse acc :
  visit graph fuel path inverse acc =
    JsObject.push path inverse acc
      ≫= _getInverseDependencies fuel inverse graph.
Proof. reflexivity. Qed.

Lemma _getInverseDependencies_S fuel path acc :
  _getInverseDependencies (S fuel) path graph acc =
    if JsObject.has path acc then Return acc
    else match dependencies graph !! path with
         | None => Return acc
         | Some module =>
             for_of (Mod.inverseDependencies module) (visit graph fuel path)
               (JsObject.set path [] acc)
         end.
Proof. reflexivity. Qed.

Lemma closed_in_mono ks ks' new :
  ks ⊆ ks' → closed_in graph ks new → closed_in graph ks' new.
Proof.
  intros Hsub Hcl. unfold closed_in in *. eapply Forall_impl; [exact Hcl|].
  intros e He x Hx Hk. apply Hsub. by apply He.
Qed.

(** Total correctness of one call: with more fuel than unvisited modules
    the call returns the accumulator extended, at its end, with complete
    entries under new, pairwise distinct keys; the inverse dependencies
    listed in the new entries, and [path] itself, are keys of the result
    whenever the graph knows them. *)
Lemma _getInverseDependencies_total fuel :
  ∀ path acc, unvisited graph acc < fuel →
    ∃ new, _getInverseDependencies fuel path graph acc = Return (acc ++ new)
           ∧ complete graph new
           ∧ NoDup (JsObject.keys new)
           ∧ JsObject.keys new ## JsObject.keys acc
           ∧ closed_in graph (JsObject.keys (acc ++ new)) new
           ∧ (known graph path → path ∈ JsObject.keys (acc ++ new)).
Proof.
  induction fuel as [|fuel IH]; intros path acc Hfuel; [lia|].
  rewrite _getInverseDependencies_S.
  destruct (JsObject.has path acc) eqn:Hhas.
  { exists []. rewrite app_nil_r. apply has_true in Hhas.
    split_and!; [done|constructor|constructor|set_solver|constructor|done]. }
  destruct (dependencies graph !! path) as [module|] eqn:Hget.
  2:{ exists []. rewrite app_nil_r.
      split_and!; [done|constructor|constructor|set_solver|constructor|].
      unfold known. rewrite Hget. by intros [? ?]. }
  apply has_false in Hhas.
  rewrite (set_fresh _ _ _ Hhas).
  pose proof (unvisited_expand acc path [] Hhas (mk_is_Some _ _ Hget)) as Hexp.
  (* the loop, for any prefix [done] already pushed and any entries
     [post] added by the calls so far *)
  assert (Hloop : ∀ invs done post,
    complete graph post → NoDup (JsObject.keys post) →
    JsObject.keys post ## JsObject.keys acc → path ∉ JsObject.keys post →
    closed_in graph (JsObject.keys acc ++ (path :: JsObject.keys post)) post →
    (∀ x, x ∈ done → known graph x →
          x ∈ JsObject.keys acc ++ (path :: JsObject.keys post)) →
    ∃ post', for_of invs (visit graph fuel path) (acc ++ (path, done) :: post)
               = Return (acc ++ (path, done ++ invs) :: post')
             ∧ complete graph post' ∧ NoDup (JsObject.keys post')
             ∧ JsObject.keys post' ## JsObject.keys acc
             ∧ (path ∉ JsObject.keys post')
             ∧ closed_in graph
                 (JsObject.keys acc ++ (path :: JsObject.keys post')) post'
             ∧ (∀ x, x ∈ done ++ invs → known graph x →
                     x ∈ JsObject.keys acc ++ (path :: JsObject.keys post'))).
  { induction invs as [|inverse invs IHinvs];
      intros done post Hc Hnd Hdisj Hp Hcl Hdone.
    { exists post. by rewrite app_nil_r. }
    simpl. rewrite visit_unfold, (push_middle _ _ _ _ _ Hhas). simpl.
    destruct (IH inverse (acc ++ (path, done ++ [inverse]) :: post))
      as (new & Hcall & Hcn & Hndn & Hdn & Hcln & Hinv).
    { assert (unvisited graph (acc ++ (path, done ++ [inverse]) :: post)
              ≤ unvisited graph (acc ++ [(path, [])])); [|lia].
      apply unvisited_mono. rewrite !keys_app. simpl. set_solver. }
    rewrite Hcall. simpl. rewrite <- app_assoc. simpl.
    rewrite <- app_assoc, !keys_app in Hcln, Hinv. simpl in Hcln, Hinv.
    rewrite keys_app in Hdn. simpl in Hdn.
    destruct (IHinvs (done ++ [inverse]) (post ++ new))
      as (post' & Hfor & Hrest).
    - by apply Forall_app.
    - rewrite keys_app. apply NoDup_app. set_solver.
    - rewrite keys_app. set_solver.
    - rewrite keys_app. set_solver.
    - rewrite keys_app. apply Forall_app. split; [|done].
      eapply closed_in_mono; [|exact Hcl]. set_solver.
    - rewrite keys_app. intros x [Hx| ->%list_elem_of_singleton]%elem_of_app Hk.
      + specialize (Hdone x Hx Hk). set_solver.
      + by apply Hinv.
    - exists post'. rewrite <- app_assoc in Hfor, Hrest. simpl in Hfor, Hrest.
      by rewrite Hfor. }
  destruct (Hloop (Mod.inverseDependencies module) [] [])
    as (post' & Hfor & Hc & Hnd & Hdisj & Hp & Hcl & Hdone);
    [constructor|constructor|set_solver|set_solver|constructor|set_solver|].
  exists ((path, Mod.inverseDependencies module) :: post').
  rewrite !keys_app. simpl.
  split_and!; [exact Hfor| | | | |].
  - constructor; [|done]. simpl. eauto.
  - by constructor.
  - set_solver.
  - by constructor.
  - intros _. set_solver.
Qed.

(** The result does not depend on the fuel. *)
Lemma _getInverseDependencies_fuel_mono fuel :
  ∀ fuel' path acc r, fuel ≤ fuel' →
    _getInverseDependencies fuel path graph acc = Return r →
    _getInverseDependencies fuel' path graph acc = Return r.
Proof.
  induction fuel as [|fuel IH]; intros fuel' path acc r Hle; [done|].
  destruct fuel' as [|fuel']; [lia|].
  rewrite !_getInverseDependencies_S.
  destruct (JsObject.has path acc); [done|].
  destruct (dependencies graph !! path) as [module|]; [|done].
  apply for_of_mono. intros inverse s r'. unfold visit.
  intros (s' & -> & Hcall)%bind_Return. simpl.
  apply IH; [lia|done].
Qed.

Lemma _getInverseDependencies_fuel_irrelevant fuel fuel' path acc r r' :
  _getInverseDependencies fuel path graph acc = Return r →
  _getInverseDependencies fuel' path graph acc = Return r' →
  r = r'.
Proof.
  intros H1 H2.
  apply (_getInverseDependencies_fuel_mono _ (fuel `max` fuel')) in H1; [|lia].
  apply (_getInverseDependencies_fuel_mono _ (fuel `max` fuel')) in H2; [|lia].
  congruence.
Qed.

(** Whatever the fuel, a call that returns has extended the accumulator
    as described by [_getInverseDependencies_total]. *)
Lemma _getInverseDependencies_spec fuel path acc r :
  _getInverseDependencies fuel path graph acc = Return r →
  ∃ new, r = acc ++ new ∧ complete graph new ∧ NoDup (JsObject.keys new)
         ∧ JsObject.keys new ## JsObject.keys acc.
Proof.
  intros Hr.
  destruct (_getInverseDependencies_total (S (unvisited graph acc)) path acc)
    as (new & Hnew & ? & ? & ? & _); [lia|].
  exists new. split; [|done].
  eapply _getInverseDependencies_fuel_irrelevant; eauto.
Qed.

Lemma unvisited_empty :
  unvisited graph JsObject.empty = size (dependencies graph).
Proof.
  unfold unvisited. simpl. rewrite difference_empty_L. apply size_dom.
Qed.

Lemma getInverseDependencies_total path :
  ∃ r, getInverseDependencies path graph = Return r
       ∧ complete graph r ∧ NoDup (JsObject.keys r)
       ∧ closed_in graph (JsObject.keys r) r
       ∧ (known graph path → path ∈ JsObject.keys r).
Proof.
  unfold getInverseDependencies.
  destruct (_getInverseDependencies_total (S (size (dependencies graph)))
              path JsObject.empty) as (new & Hnew & Hc & Hnd & _ & Hcl & Hp).
  { rewrite unvisited_empty. lia. }
  exists new. by rewrite Hnew.
Qed.

(** The value stored under a key of a complete map. *)
Lemma complete_get r p :
  complete graph r → p ∈ JsObject.keys r →
  ∃ module, dependencies graph !! p = Some module
            ∧ JsObject.get p r = Some (Mod.inverseDependencies module)
            ∧ (p, Mod.inverseDependencies module) ∈ r.
Proof.
  induction r as [|[k v] r IH]; simpl; [by intros _ ?%elem_of_nil|].
  intros [(module & Hm & Hv) Hc]%Forall_cons Hin. simpl in Hm, Hv.
  destruct (decide (k = p)) as [->|Hne].
  - exists module. rewrite Hv. split_and!; [done..|]. by left.
  - apply elem_of_cons in Hin as [?|Hin]; [congruence|].
    destruct (IH Hc Hin) as (module' & ? & ? & ?).
    exists module'. split_and!; [done..|]. by right.
Qed.

Lemma closed_in_elem ks r p v x :
  closed_in graph ks r → (p, v) ∈ r → x ∈ v → known graph x → x ∈ ks.
Proof.
  unfold closed_in. rewrite Forall_forall. intros Hcl Hin. by apply (Hcl _ Hin).
Qed.
End Traversal.

(** ** The traced traversal *)

Lemma erase_Return {A B} (c : completion (A * B)) (a : A) :
  erase c = Return a → ∃ b, c = Return (a, b).
Proof. destruct c as [[a' b]| |]; [|done..]. intros [= ->]. by exists b. Qed.

Lemma for_of_erase {A S B} (xs : list A)
    (body1 : A → S * B → completion (S * B)) (body2 : A → S → completion S) :
  (∀ x s b, erase (body1 x (s, b)) = body2 x s) →
  ∀ s b, erase (for_of xs body1 (s, b)) = for_of xs body2 s.
Proof.
  intros Hbody. induction xs as [|x xs IH]; intros s b; simpl; [done|].
  rewrite <- (Hbody x s b).
  destruct (body1 x (s, b)) as [[s' b']| |]; simpl; [apply IH|done|done].
Qed.

Section Traced.
Context {T : Type} (graph : Graph T).
Implicit Types (acc : InverseDependencyMap) (trace : list event).

(** The traced function computes the same map. *)
Lemma _getInverseDependencies_traced_erase fuel :
  ∀ path acc trace,
    erase (_getInverseDependencies_traced fuel path graph (acc, trace))
    = _getInverseDependencies fuel path graph acc.
Proof.
  induction fuel as [|fuel IH]; intros path acc trace; simpl; [done|].
  destruct (JsObject.has path acc); [done|].
  destruct (dependencies graph !! path) as [module|]; [|done].
  apply for_of_erase. intros inverse s b.
  destruct (JsObject.push path inverse s); simpl; [apply IH|done|done].
Qed.

(** One call appends events to the trace; the keys it adds are the paths
    it expands, in that order, and it expands exactly the looked-up paths
    that the graph knows. *)
Lemma _getInverseDependencies_traced_events fuel :
  ∀ path acc trace acc' trace',
    _getInverseDependencies_traced fuel path graph (acc, trace)
      = Return (acc', trace') →
    ∃ ev, trace' = trace ++ ev
          ∧ JsObject.keys acc' = JsObject.keys acc ++ expansions ev
          ∧ filter (known graph) (lookups ev) = expansions ev.
Proof.
  induction fuel as [|fuel IH]; intros path acc trace acc' trace'; simpl;
    [done|].
  assert (Hloop : ∀ invs acc1 trace1,
    for_of invs
      (λ inverse '(acc, trace),
         acc ← JsObject.push path inverse acc ;
         _getInverseDependencies_traced fuel inverse graph (acc, trace))
      (acc1, trace1) = Return (acc', trace') →
    ∃ ev, trace' = trace1 ++ ev
          ∧ JsObject.keys acc' = JsObject.keys acc1 ++ expansions ev
          ∧ filter (known graph) (lookups ev) = expansions ev).
  { induction invs as [|inverse invs IHinvs]; intros acc1 trace1; simpl.
    { intros [= <- <-]. exists []. by rewrite !app_nil_r. }
    intros ([acc2 trace2] & Hbody & Hrest)%bind_Return.
    apply bind_Return in Hbody as (acc1' & Hpush & Hcall).
    apply push_keys in Hpush. apply IH in Hcall as (ev1 & -> & Hk1 & Hf1).
    apply IHinvs in Hrest as (ev2 & -> & Hk2 & Hf2).
    exists (ev1 ++ ev2). unfold expansions, lookups in *.
    rewrite !omap_app, filter_app, Hf1, Hf2, Hk2, Hk1, Hpush.
    by rewrite <- !app_assoc. }
  destruct (JsObject.has path acc) eqn:Hhas.
  { intros [= <- <-]. exists []. by rewrite !app_nil_r. }
  apply has_false in Hhas.
  destruct (dependencies graph !! path) as [module|] eqn:Hget.
  2:{ intros [= <- <-]. exists [GraphGet path]. split_and!; [done|simpl|].
      - by rewrite app_nil_r.
      - simpl. rewrite filter_cons_False; [done|].
        unfold known. rewrite Hget. by intros [? ?]. }
  rewrite (set_fresh _ _ _ Hhas).
  intros (ev & -> & Hk & Hf)%Hloop.
  exists (GraphGet path :: Expand path :: ev). split_and!.
  - by rewrite <- !app_assoc.
  - rewrite Hk, keys_app. simpl. by rewrite <- app_assoc.
  - simpl. rewrite filter_cons_True by (unfold known; by rewrite Hget).
    by rewrite <- Hf.
Qed.

(** From the empty accumulator: the keys of the result are the expanded
    paths, no path is expanded twice, and the expanded paths are the
    looked-up paths that the graph knows. *)
Lemma getInverseDependencies_traced_total path :
  ∃ r trace,
    getInverseDependencies_traced path graph = Return (r, trace)
    ∧ getInverseDependencies path graph = Return r
    ∧ JsObject.keys r = expansions trace
    ∧ NoDup (expansions trace)
    ∧ filter (known graph) (lookups trace) = expansions trace.
Proof.
  destruct (getInverseDependencies_total graph path)
    as (r & Hr & _ & Hnd & _).
  pose proof (_getInverseDependencies_traced_erase
                (S (size (dependencies graph))) path JsObject.empty [])
    as Herase.
  fold (getInverseDependencies path graph) in Herase.
  rewrite Hr in Herase. apply erase_Return in Herase as [trace Htr].
  exists r, trace. split; [exact Htr|]. split; [exact Hr|].
  apply _getInverseDependencies_traced_events in Htr as (ev & -> & Hk & Hf).
  simpl in Hk. simpl. split_and!; [exact Hk|by rewrite <- Hk|exact Hf].
Qed.
End Traced.

(** ** The serializer *)

Lemma up_to_pathname_refl options : up_to_pathname options options.
Proof. done. Qed.

Lemma up_to_pathname_set v options :
  up_to_pathname options (set_clientUrl_pathname v options).
Proof. done. Qed.

Lemma up_to_pathname_trans o1 o2 o3 :
  up_to_pathname o1 o2 → up_to_pathname o2 o3 → up_to_pathname o1 o3.
Proof. intros H12 H23 v. by rewrite H12. Qed.

Lemma up_to_pathname_createModuleId options options' :
  up_to_pathname options options' →
  createModuleId options = createModuleId options'.
Proof. intros H. exact (f_equal createModuleId (H EmptyString)). Qed.

Lemma up_to_pathname_projectRoot options options' :
  up_to_pathname options options' →
  projectRoot options = projectRoot options'.
Proof. intros H. exact (f_equal projectRoot (H EmptyString)). Qed.

Lemma get_is_Some {K V} `{EqDecision K} (k : K) (o : JsObject.t K V) :
  k ∈ JsObject.keys o → is_Some (JsObject.get k o).
Proof.
  induction o as [|[k' v] o IH]; simpl; [by intros ?%elem_of_nil|].
  intros Hin. destruct (decide (k' = k)); [done|].
  apply elem_of_cons in Hin as [?|?]; [congruence|auto].
Qed.

Section SerializerFacts.
Context {T : Type} {helpers : Helpers T}.
Implicit Types (module : Mod.t T) (graph : Graph T) (options : Options).

Lemma options_after_up_to options js :
  up_to_pathname options (options_after options js).
Proof.
  revert options. induction js as [|module js IH]; intros options; simpl.
  - apply up_to_pathname_refl.
  - eapply up_to_pathname_trans; [|apply IH]. apply up_to_pathname_set.
Qed.

Lemma options_after_app options js1 js2 :
  options_after options (js1 ++ js2)
  = options_after (options_after options js1) js2.
Proof. apply foldl_app. Qed.

Lemma options_after_snoc options js module :
  options_after options (js ++ [module])
  = set_clientUrl_pathname (bundlePath options module) options.
Proof.
  unfold options_after. rewrite foldl_app. simpl.
  fold (options_after options js).
  pose proof (options_after_up_to options js) as Hup.
  unfold bundlePath. rewrite <- (up_to_pathname_projectRoot _ _ Hup).
  symmetry. apply Hup.
Qed.

Lemma translateInverseDependencies_total options inverseDependencies :
  ∃ byId,
    translateInverseDependencies options inverseDependencies = Return byId.
Proof.
  unfold translateInverseDependencies.
  generalize (@JsObject.empty ModuleId (list ModuleId)).
  assert (Hks : JsObject.keys inverseDependencies
                ⊆ JsObject.keys inverseDependencies) by done.
  revert Hks. generalize (JsObject.keys inverseDependencies) at 1 3.
  induction l as [|k ks IH]; intros Hks byId; simpl; [eauto|].
  destruct (get_is_Some k inverseDependencies) as [inverses ->];
    [set_solver|].
  simpl. apply IH. set_solver.
Qed.

Lemma _prepareModule_total module graph options :
  ∃ code, _prepareModule module graph options = Return code.
Proof.
  unfold _prepareModule.
  destruct (getInverseDependencies_total graph (Mod.path module))
    as (inv & -> & _).
  simpl.
  destruct (translateInverseDependencies_total options inv) as (byId & ->).
  simpl. eauto.
Qed.

Lemma generateModules_unfold (sourceModules : list (Mod.t T)) graph options :
  generateModules sourceModules graph options
  = for_of sourceModules (generateModules_step graph)
      ({| modules := []; sourceMappingURLs := []; sourceURLs := [] |},
       options).
Proof. reflexivity. Qed.

(** The loop of [generateModules], from any state of its accumulators. *)
Lemma generateModules_loop graph (sourceModules : list (Mod.t T)) :
  ∀ acc options,
    ∃ records,
      for_of sourceModules (generateModules_step graph) (acc, options)
      = Return
          ({| modules := modules acc ++ records;
              sourceMappingURLs :=
                sourceMappingURLs acc
                  ++ map sourceMappingURL (filter isJsModule sourceModules);
              sourceURLs :=
                sourceURLs acc
                  ++ map (sourceURL options)
                       (filter isJsModule sourceModules) |},
           options_after options (filter isJsModule sourceModules))
      ∧ prepared graph options (filter isJsModule sourceModules) records.
Proof.
  induction sourceModules as [|module sourceModules IH]; intros acc options.
  { exists []. simpl. rewrite !app_nil_r. by destruct acc. }
  simpl. rewrite filter_cons. destruct (isJsModule module) eqn:Hjs; simpl.
  - destruct (_prepareModule_total module graph options) as [code Hcode].
    rewrite Hcode. simpl.
    edestruct IH as (records & -> & Hprep).
    exists ((createModuleId options (Mod.path module), code) :: records).
    simpl. rewrite <- !app_assoc. split; [done|]. eauto.
  - apply IH.
Qed.

Lemma generateModules_spec sourceModules graph options :
  ∃ records,
    generateModules sourceModules graph options
    = Return
        ({| modules := records;
            sourceMappingURLs :=
              map sourceMappingURL (filter isJsModule sourceModules);
            sourceURLs :=
              map (sourceURL options) (filter isJsModule sourceModules) |},
         options_after options (filter isJsModule sourceModules))
    ∧ prepared graph options (filter isJsModule sourceModules) records.
Proof.
  rewrite generateModules_unfold. apply generateModules_loop.
Qed.

Lemma sourceURL_up_to options options' module :
  up_to_pathname options options' →
  sourceURL options module = sourceURL options' module.
Proof.
  intros Hup. unfold sourceURL, bundlePath.
  rewrite (up_to_pathname_projectRoot _ _ Hup). by rewrite (Hup _).
Qed.

Lemma prepared_length graph options js records :
  prepared graph options js records → length records = length js.
Proof.
  revert options records. induction js as [|module js IH];
    intros options records; simpl.
  - by intros ->.
  - intros (code & records' & -> & _ & Hprep). simpl. f_equal. eauto.
Qed.

(** The record at index [i] carries the id of the [i]-th eligible module
    and the code prepared for it, with the options object as the loop
    finds it after the [i] modules before. *)
Lemma prepared_lookup graph options js records i module :
  prepared graph options js records → js !! i = Some module →
  ∃ code,
    records !! i = Some (createModuleId options (Mod.path module), code)
    ∧ _prepareModule module graph (options_after options (take i js))
      = Return code.
Proof.
  revert options records i. induction js as [|module' js IH];
    intros options records i; simpl; [done|].
  intros (code & records' & -> & Hcode & Hprep) Hi.
  destruct i as [|i]; simpl in *.
  - injection Hi as ->. eauto.
  - destruct (IH _ _ _ Hprep Hi) as (code' & Hrec & Hcode'). eauto.
Qed.

Lemma hmrJSBundle_spec (delta : DeltaResult T) graph options :
  let jsA := filter isJsModule (values (delta_added delta)) in
  let jsM := filter isJsModule (values (delta_modified delta)) in
  ∃ recordsA recordsM,
    hmrJSBundle delta graph options
    = Return
        ({| added := recordsA;
            modified := recordsM;
            deleted := map (createModuleId options) (delta_deleted delta);
            addedSourceMappingURLs := map sourceMappingURL jsA;
            addedSourceURLs := map (sourceURL options) jsA;
            modifiedSourceMappingURLs := map sourceMappingURL jsM;
            modifiedSourceURLs := map (sourceURL options) jsM |},
         options_after options (jsA ++ jsM))
    ∧ prepared graph options jsA recordsA
    ∧ prepared graph (options_after options jsA) jsM recordsM.
Proof.
  intros jsA jsM. unfold hmrJSBundle.
  destruct (generateModules_spec (values (delta_added delta)) graph options)
    as (recordsA & -> & HA).
  simpl. fold jsA.
  destruct (generateModules_spec (values (delta_modified delta)) graph
              (options_after options jsA)) as (recordsM & -> & HM).
  simpl. fold jsM. exists recordsA, recordsM. split; [|done].
  pose proof (options_after_up_to options jsA) as Hup.
  pose proof (options_after_up_to (options_after options jsA) jsM) as Hup'.
  rewrite options_after_app. do 2 f_equal. f_equal.
  - rewrite <- (up_to_pathname_createModuleId _ _ Hup').
    by rewrite <- (up_to_pathname_createModuleId _ _ Hup).
  - apply map_ext. intros module. symmetry. by apply sourceURL_up_to.
Qed.
End SerializerFacts.

(** ** Counting occurrences *)

Lemma occurrences_not_elem {A} `{EqDecision A} (x : A) (l : list A) :
  x ∉ l → occurrences x l = 0.
Proof.
  unfold occurrences. induction l as [|y l IH]; [done|].
  intros [Hne Hnin]%not_elem_of_cons.
  rewrite filter_cons_False by congruence. auto.
Qed.

Lemma occurrences_NoDup {A} `{EqDecision A} (x : A) (l : list A) :
  NoDup l → x ∈ l → occurrences x l = 1.
Proof.
  induction 1 as [|y l Hy Hnd IH]; [by intros ?%elem_of_nil|].
  intros [->|Hin]%elem_of_cons; unfold occurrences in *.
  - rewrite filter_cons_True by done. simpl. f_equal.
    by apply occurrences_not_elem.
  - rewrite filter_cons_False; [auto|]. by intros ->.
Qed.

Lemma occurrences_filter {A} `{EqDecision A} (P : A → Prop)
    `{∀ y, Decision (P y)} (x : A) (l : list A) :
  P x → occurrences x (filter P l) = occurrences x l.
Proof.
  intros HP. unfold occurrences. rewrite list_filter_filter.
  f_equal. apply list_filter_iff. intros y. split; [by intros [? _]|].
  intros ->. done.
Qed.

(** * The inverse-dependency resolver: claims *)

Section ResolverClaims.
Context {T : Type} (graph : Graph T).

(** C2.  The resolution terminates for every graph, cyclic or not: a call
    returns as soon as its fuel exceeds the number of modules of the graph
    that are not yet keys of the accumulator, which drops at the moment a
    path is recorded, before its inverse dependencies are visited.  From the
    empty accumulator the call of [_prepareModule] returns a map with
    pairwise distinct keys; for a two-module cycle, A imported by B and B by
    A, it returns exactly [{A: [B], B: [A]}]. *)
Theorem getInverseDependencies_terminates (path : string) :
  (∀ fuel acc, unvisited graph acc < fuel →
     ∃ r, _getInverseDependencies fuel path graph acc = Return r)
  ∧ (∃ r, getInverseDependencies path graph = Return r
          ∧ NoDup (JsObject.keys r))
  ∧ (∀ a b moduleA moduleB,
       a ≠ b →
       dependencies graph !! a = Some moduleA →
       Mod.inverseDependencies moduleA = [b] →
       dependencies graph !! b = Some moduleB →
       Mod.inverseDependencies moduleB = [a] →
       getInverseDependencies a graph = Return [(a, [b]); (b, [a])]).
Proof.
  split_and!.
  - intros fuel acc Hfuel.
    destruct (_getInverseDependencies_total graph fuel path acc Hfuel)
      as (new & Hnew & _). eauto.
  - destruct (getInverseDependencies_total graph path)
      as (r & Hr & _ & Hnd & _).
    eauto.
  - intros a b moduleA moduleB Hab HA HinvA HB HinvB.
    destruct (getInverseDependencies_total graph a) as (r & Hr & _).
    rewrite Hr. f_equal.
    eapply (_getInverseDependencies_fuel_irrelevant graph _ 3); [exact Hr|].
    assert (JsObject.has b [(a, [b])] = false) as Hhas1
      by (apply has_false; set_solver).
    assert (JsObject.has a [(a, [b]); (b, [a])] = true) as Hhas2
      by (apply has_true; set_solver).
    simpl. rewrite HA, HinvA. simpl.
    rewrite decide_True by done. simpl.
    rewrite Hhas1, HB, HinvB, (decide_False (P := a = b)) by done. simpl.
    rewrite (decide_False (P := a = b)), decide_True by done. simpl.
    by rewrite Hhas2.
Qed.

(** C3.  In one resolution no path is expanded twice and no key is recorded
    twice; the keys of the result are the expanded paths.  For a diamond,
    [path] imported by B and C and both imported by D, the module D is
    looked up once, expanded once and is a key once. *)
Theorem each_path_expanded_once (path : string) :
  ∃ r trace,
    getInverseDependencies_traced path graph = Return (r, trace)
    ∧ getInverseDependencies path graph = Return r
    ∧ JsObject.keys r = expansions trace
    ∧ NoDup (expansions trace)
    ∧ NoDup (JsObject.keys r)
    ∧ (∀ b c d moduleA moduleB moduleC moduleD,
         dependencies graph !! path = Some moduleA →
         Mod.inverseDependencies moduleA = [b; c] →
         dependencies graph !! b = Some moduleB →
         Mod.inverseDependencies moduleB = [d] →
         dependencies graph !! c = Some moduleC →
         Mod.inverseDependencies moduleC = [d] →
         dependencies graph !! d = Some moduleD →
         occurrences d (lookups trace) = 1
         ∧ occurrences d (expansions trace) = 1
         ∧ occurrences d (JsObject.keys r) = 1).
Proof.
  destruct (getInverseDependencies_traced_total graph path)
    as (r & trace & Htr & Hr & Hkeys & Hnd & Hlook).
  exists r, trace.
  split_and!;
    [exact Htr|exact Hr|exact Hkeys|exact Hnd|rewrite Hkeys; exact Hnd|].
  intros b c d moduleA moduleB moduleC moduleD HA HinvA HB HinvB _ _ HD.
  destruct (getInverseDependencies_total graph path)
    as (r' & Hr' & Hc & _ & Hcl & Hstart).
  assert (r' = r) as -> by congruence.
  (* [path] is a key, so is B, so is D *)
  assert (path ∈ JsObject.keys r) as HkA by (apply Hstart; by eexists).
  destruct (complete_get graph r path Hc HkA) as (mA & HmA & _ & HeA).
  assert (mA = moduleA) as -> by congruence. rewrite HinvA in HeA.
  assert (b ∈ JsObject.keys r) as HkB.
  { eapply closed_in_elem; [exact Hcl|exact HeA|set_solver|by eexists]. }
  destruct (complete_get graph r b Hc HkB) as (mB & HmB & _ & HeB).
  assert (mB = moduleB) as -> by congruence. rewrite HinvB in HeB.
  assert (d ∈ JsObject.keys r) as HkD.
  { eapply closed_in_elem; [exact Hcl|exact HeB|set_solver|by eexists]. }
  assert (occurrences d (expansions trace) = 1) as Hexp.
  { apply occurrences_NoDup; [done|by rewrite <- Hkeys]. }
  split_and!; [|done|by rewrite Hkeys].
  rewrite <- (occurrences_filter (known graph)) by (by eexists).
  by rewrite Hlook.
Qed.

(** C8.  A path that the graph does not have is a boundary of the
    traversal: the call on it returns the accumulator as it is, expands
    nothing, and the path is never added as a key by any resolution; a
    resolution that starts there returns the empty map. *)
Theorem missing_module_is_boundary (path : string) :
  dependencies graph !! path = None →
  (∀ fuel acc,
     _getInverseDependencies (S fuel) path graph acc = Return acc)
  ∧ (∀ fuel acc trace,
       _getInverseDependencies_traced (S fuel) path graph (acc, trace)
       = Return (acc, if JsObject.has path acc then trace
                      else trace ++ [GraphGet path]))
  ∧ getInverseDependencies path graph = Return JsObject.empty
  ∧ (∀ fuel start acc r,
       _getInverseDependencies fuel start graph acc = Return r →
       path ∈ JsObject.keys r → path ∈ JsObject.keys acc)
  ∧ (∀ start, ∃ r, getInverseDependencies start graph = Return r
                   ∧ path ∉ JsObject.keys r).
Proof.
  intros Hnone.
  assert (Hkey : ∀ fuel start acc r,
    _getInverseDependencies fuel start graph acc = Return r →
    path ∈ JsObject.keys r → path ∈ JsObject.keys acc).
  { intros fuel start acc r Hr Hin.
    apply _getInverseDependencies_spec in Hr as (new & -> & Hc & _).
    rewrite keys_app in Hin. apply elem_of_app in Hin as [?|Hin]; [done|].
    destruct (complete_get graph new path Hc Hin) as (module & Hm & _).
    congruence. }
  split_and!.
  - intros fuel acc. rewrite _getInverseDependencies_S, Hnone.
    by destruct (JsObject.has path acc).
  - intros fuel acc trace. simpl. rewrite Hnone.
    by destruct (JsObject.has path acc).
  - unfold getInverseDependencies.
    rewrite _getInverseDependencies_S, Hnone. done.
  - exact Hkey.
  - intros start.
    destruct (getInverseDependencies_total graph start) as (r & Hr & _).
    exists r. split; [done|]. intros Hin.
    apply (Hkey _ _ _ _ Hr) in Hin. by apply elem_of_nil in Hin.
Qed.

(** C10.  Every key of a resolved map is a module of the graph, and the
    value under it is that module's inverse dependencies, all of them and
    in the graph's order; an inverse dependency that the graph does not have
    is listed in the value all the same, and is not a key. *)
Theorem inverse_dependency_map_entries (start : string) :
  ∃ r, getInverseDependencies start graph = Return r
       ∧ ∀ p, p ∈ JsObject.keys r →
           ∃ module, dependencies graph !! p = Some module
                     ∧ JsObject.get p r
                       = Some (Mod.inverseDependencies module)
                     ∧ ∀ x, x ∈ Mod.inverseDependencies module →
                            dependencies graph !! x = None →
                            x ∉ JsObject.keys r.
Proof.
  destruct (getInverseDependencies_total graph start) as (r & Hr & Hc & _).
  exists r. split; [done|]. intros p Hp.
  destruct (complete_get graph r p Hc Hp) as (module & ? & ? & _).
  exists module. split_and!; [done..|]. intros x _ Hx Hin.
  destruct (complete_get graph r x Hc Hin) as (module' & ? & _). congruence.
Qed.
End ResolverClaims.

(** * The serializer: claims *)

Lemma lookup_map {A B} (f : A → B) (l : list A) (i : nat) :
  map f l !! i = f <$> l !! i.
Proof. revert i. induction l as [|x l IH]; intros [|i]; simpl; auto. Qed.

Section SerializerClaims.
Context {T : Type} {helpers : Helpers T}.
Implicit Types (module : Mod.t T) (graph : Graph T) (options : Options).
Implicit Types (delta : DeltaResult T).

Lemma prepared_aligned graph options start js records :
  up_to_pathname options start →
  prepared graph start js records →
  aligned graph options start js records
    (map sourceMappingURL js) (map (sourceURL options) js).
Proof.
  intros Hup Hprep. unfold aligned. rewrite !length_map.
  split_and!; [by eapply prepared_length|done..|].
  intros i module Hi.
  destruct (prepared_lookup _ _ _ _ _ _ Hprep Hi) as (code & Hrec & Hcode).
  exists code. rewrite !lookup_map, Hi, Hrec.
  by rewrite (up_to_pathname_createModuleId _ _ Hup).
Qed.

(** C1.  The three arrays of the added family have the length of the list
    of eligible added modules, and at every index the record, the source-map
    URL and the source URL are those of the eligible module at that index;
    likewise for the modified family. *)
Theorem hmrJSBundle_index_alignment delta graph options :
  let jsA := filter isJsModule (values (delta_added delta)) in
  let jsM := filter isJsModule (values (delta_modified delta)) in
  ∃ payload options',
    hmrJSBundle delta graph options = Return (payload, options')
    ∧ aligned graph options options jsA
        (added payload) (addedSourceMappingURLs payload)
        (addedSourceURLs payload)
    ∧ aligned graph options (options_after options jsA) jsM
        (modified payload) (modifiedSourceMappingURLs payload)
        (modifiedSourceURLs payload).
Proof.
  intros jsA jsM.
  destruct (hmrJSBundle_spec delta graph options)
    as (recordsA & recordsM & Hrun & HA & HM).
  eexists _, _. split; [exact Hrun|]. simpl. split.
  - by apply prepared_aligned.
  - apply prepared_aligned; [apply options_after_up_to|done].
Qed.

(** C4.  The deleted ids are the deleted paths, in their order, each
    translated by [createModuleId]: [1, 2] for the paths /a.js and /b.js
    with ids 1 and 2. *)
Theorem hmrJSBundle_deleted delta graph options :
  ∃ payload options',
    hmrJSBundle delta graph options = Return (payload, options')
    ∧ deleted payload = map (createModuleId options) (delta_deleted delta)
    ∧ (delta_deleted delta = ["/a.js"; "/b.js"] →
       createModuleId options "/a.js" = 1%Z →
       createModuleId options "/b.js" = 2%Z →
       deleted payload = [1%Z; 2%Z]).
Proof.
  destruct (hmrJSBundle_spec delta graph options)
    as (recordsA & recordsM & Hrun & _).
  eexists _, _. split; [exact Hrun|]. simpl. split; [done|].
  by intros -> <- <-.
Qed.

(** The loop of [generateModules] skips what is not a JS module. *)
Lemma generateModules_filter (sourceModules : list (Mod.t T)) graph options :
  generateModules sourceModules graph options
  = generateModules (filter isJsModule sourceModules) graph options.
Proof.
  unfold generateModules.
  generalize ({| modules := []; sourceMappingURLs := []; sourceURLs := [] |},
              options).
  induction sourceModules as [|module sourceModules IH]; intros [acc o];
    [done|].
  rewrite filter_cons. destruct (decide (isJsModule module)) as [Hjs|Hjs].
  - apply Is_true_true in Hjs. simpl. rewrite Hjs.
    destruct (_prepareModule module graph o); simpl; [apply IH|done..].
  - apply Is_true_false in Hjs. simpl. rewrite Hjs. simpl. apply IH.
Qed.

Lemma hmrJSBundle_filter delta graph options :
  hmrJSBundle delta graph options
  = hmrJSBundle
      {| delta_added := filter (λ e, isJsModule e.2) (delta_added delta);
         delta_modified := filter (λ e, isJsModule e.2) (delta_modified delta);
         delta_deleted := delta_deleted delta |}
      graph options.
Proof.
  assert (Hvalues : ∀ entries : list (string * Mod.t T),
    filter isJsModule (values entries)
    = filter isJsModule (values (filter (λ e, isJsModule e.2) entries))).
  { induction entries as [|[k module] entries IH]; [done|].
    unfold values in *. rewrite fmap_cons, !filter_cons. simpl.
    destruct (decide (isJsModule module)) as [Hjs|Hjs]; [|done].
    rewrite fmap_cons, filter_cons. simpl.
    rewrite decide_True by done. by rewrite IH. }
  unfold hmrJSBundle. simpl.
  rewrite (generateModules_filter (values (delta_added delta))).
  rewrite (generateModules_filter
             (values (filter _ (delta_added delta)))).
  rewrite <- Hvalues.
  destruct (generateModules _ graph options) as [[a o]| |]; simpl; [|done..].
  rewrite (generateModules_filter (values (delta_modified delta))).
  rewrite (generateModules_filter
             (values (filter _ (delta_modified delta)))).
  by rewrite <- Hvalues.
Qed.

(** C5.  A module that is not a JS module leaves no mark: with it or
    without it among the added modules, or among the modified ones, the
    call returns the same payload (and the same options object). *)
Theorem hmrJSBundle_excludes_non_js graph options
    (before after others : list (string * Mod.t T)) (deletions : list string)
    (key : string) module :
  isJsModule module = false →
  hmrJSBundle {| delta_added := before ++ (key, module) :: after;
                 delta_modified := others;
                 delta_deleted := deletions |} graph options
  = hmrJSBundle {| delta_added := before ++ after;
                   delta_modified := others;
                   delta_deleted := deletions |} graph options
  ∧ hmrJSBundle {| delta_added := others;
                   delta_modified := before ++ (key, module) :: after;
                   delta_deleted := deletions |} graph options
    = hmrJSBundle {| delta_added := others;
                     delta_modified := before ++ after;
                     delta_deleted := deletions |} graph options.
Proof.
  intros Hjs.
  assert (Hdrop : filter (λ e : string * Mod.t T, isJsModule e.2)
                    (before ++ (key, module) :: after)
                  = filter (λ e, isJsModule e.2) (before ++ after)).
  { rewrite !filter_app, filter_cons_False; [done|]. by apply Is_true_false. }
  split.
  - rewrite hmrJSBundle_filter. symmetry. rewrite hmrJSBundle_filter.
    simpl. by rewrite Hdrop.
  - rewrite hmrJSBundle_filter. symmetry. rewrite hmrJSBundle_filter.
    simpl. by rewrite Hdrop.
Qed.

Lemma translateInverseDependencies_up_to options options' inv :
  up_to_pathname options options' →
  translateInverseDependencies options' inv
  = translateInverseDependencies options inv.
Proof.
  intros Hup. unfold translateInverseDependencies.
  by rewrite (up_to_pathname_createModuleId _ _ Hup).
Qed.

Lemma _prepareModule_agree graph options options' module :
  up_to_pathname options options' →
  wrapModule module options' true = wrapModule module options true →
  _prepareModule module graph options' = _prepareModule module graph options.
Proof.
  intros Hup Hwrap. unfold _prepareModule. rewrite Hwrap.
  destruct (getInverseDependencies _ graph); simpl; [|done..].
  by rewrite (translateInverseDependencies_up_to _ _ _ Hup).
Qed.

(** Two runs of the loop from option objects that differ at most in the
    pathname, and that [wrapModule] does not tell apart, build the same
    arrays. *)
Lemma generateModules_agree graph (sourceModules : list (Mod.t T)) :
  ∀ acc options options' generated options1,
    up_to_pathname options options' →
    (∀ module, wrapModule module options' true
               = wrapModule module options true) →
    for_of sourceModules (generateModules_step graph) (acc, options)
      = Return (generated, options1) →
    ∃ options1',
      for_of sourceModules (generateModules_step graph) (acc, options')
        = Return (generated, options1')
      ∧ up_to_pathname options1 options1'
      ∧ (∀ module, wrapModule module options1' true
                   = wrapModule module options1 true).
Proof.
  induction sourceModules as [|module sourceModules IH];
    intros acc options options' generated options1 Hup Hwrap; simpl.
  { intros [= <- <-]. eauto. }
  destruct (isJsModule module) eqn:Hjs; simpl; [|by apply IH].
  rewrite (_prepareModule_agree graph options options' module Hup (Hwrap _)).
  destruct (_prepareModule module graph options) as [code| |]; simpl;
    [|done..].
  rewrite <- (sourceURL_up_to options options' module Hup).
  rewrite <- (up_to_pathname_createModuleId _ _ Hup).
  assert (set_clientUrl_pathname (bundlePath options' module) options'
          = set_clientUrl_pathname (bundlePath options module) options)
    as ->.
  { unfold bundlePath. rewrite <- (up_to_pathname_projectRoot _ _ Hup).
    symmetry. apply Hup. }
  intros Hrun. exists options1. split; [exact Hrun|].
  split; [apply up_to_pathname_refl|done].
Qed.

(** C6.  The payload is a function of the delta, the graph and the options
    object: the call returns one payload.  It returns the same payload from
    an options object that differs at most in [clientUrl.pathname], as the
    object does once a first call has written to it, provided [wrapModule]
    does not tell the two objects apart. *)
Theorem hmrJSBundle_deterministic delta graph options :
  ∃ payload options1,
    hmrJSBundle delta graph options = Return (payload, options1)
    ∧ up_to_pathname options options1
    ∧ ∀ options',
        up_to_pathname options options' →
        (∀ module, wrapModule module options' true
                   = wrapModule module options true) →
        ∃ options2,
          hmrJSBundle delta graph options' = Return (payload, options2).
Proof.
  destruct (hmrJSBundle_spec delta graph options)
    as (recordsA & recordsM & Hrun & _).
  eexists _, _. split; [exact Hrun|]. split; [apply options_after_up_to|].
  intros options' Hup Hwrap.
  unfold hmrJSBundle in *.
  destruct (generateModules (values (delta_added delta)) graph options)
    as [[a o1]| |] eqn:HA; simpl in Hrun; [|done..].
  destruct (generateModules (values (delta_modified delta)) graph o1)
    as [[m o2]| |] eqn:HM; simpl in Hrun; [|done..].
  rewrite generateModules_unfold in HA, HM.
  destruct (generateModules_agree _ _ _ _ _ _ _ Hup Hwrap HA)
    as (o1' & HA' & Hup1 & Hwrap1).
  destruct (generateModules_agree _ _ _ _ _ _ _ Hup1 Hwrap1 HM)
    as (o2' & HM' & Hup2 & _).
  rewrite generateModules_unfold, HA', bind_Return_l. cbv beta iota.
  rewrite generateModules_unfold, HM', bind_Return_l. cbv beta iota.
  exists o2'. rewrite <- (up_to_pathname_createModuleId _ _ Hup2).
  congruence.
Qed.

(** C7, as the code has it.  For a module without inverse dependencies in
    the graph the resolution yields [{path: []}], and the parameter added
    to the module's registration call is the one-entry mapping
    [{id: []}], from the id of the module to the empty array. *)
Theorem leaf_module_parameter module graph options (moduleG : Mod.t T) :
  dependencies graph !! Mod.path module = Some moduleG →
  Mod.inverseDependencies moduleG = [] →
  getInverseDependencies (Mod.path module) graph
    = Return [(Mod.path module, [])]
  ∧ translateInverseDependencies options [(Mod.path module, [])]
    = Return [(createModuleId options (Mod.path module), [])]
  ∧ _prepareModule module graph options
    = Return (addParamsToDefineCall (wrapModule module options true)
                [(createModuleId options (Mod.path module), [])]).
Proof.
  intros Hget Hleaf.
  assert (getInverseDependencies (Mod.path module) graph
          = Return [(Mod.path module, [])]) as Hinv.
  { unfold getInverseDependencies. rewrite _getInverseDependencies_S.
    simpl. by rewrite Hget, Hleaf. }
  assert (translateInverseDependencies options [(Mod.path module, [])]
          = Return [(createModuleId options (Mod.path module), [])]) as Htr.
  { unfold translateInverseDependencies. simpl.
    by rewrite decide_True by done. }
  split_and!; [done..|].
  unfold _prepareModule. rewrite Hinv. simpl. by rewrite Htr.
Qed.

Lemma options_after_last options js module :
  last js = Some module →
  options_after options js
  = set_clientUrl_pathname (bundlePath options module) options.
Proof.
  intros (js' & ->)%last_Some. apply options_after_snoc.
Qed.

(** C9.  A call writes to the options object and to nothing else of what
    the caller passed: every eligible module in turn overwrites
    [clientUrl.pathname] with its bundle path, so that the pathname ends as
    the bundle path of the last eligible modified module, or of the last
    eligible added module when no modified module is eligible; nothing else
    in the options changes, and the object is as it was when no module is
    eligible.  The graph and the delta are as before the call. *)
Theorem hmrJSBundle_writes_pathname (store : Store) :
  let options := store_options store in
  let jsA := filter isJsModule (values (delta_added (store_delta store))) in
  let jsM := filter isJsModule (values (delta_modified (store_delta store))) in
  ∃ payload store',
    call_hmrJSBundle store = Return (payload, store')
    ∧ store_graph store' = store_graph store
    ∧ store_delta store' = store_delta store
    ∧ store_options store' = options_after options (jsA ++ jsM)
    ∧ up_to_pathname options (store_options store')
    ∧ (∀ module, last jsM = Some module →
         pathname (clientUrl (store_options store'))
         = bundlePath options module)
    ∧ (jsM = [] → ∀ module, last jsA = Some module →
         pathname (clientUrl (store_options store'))
         = bundlePath options module)
    ∧ (jsA = [] → jsM = [] → store_options store' = options).
Proof.
  intros options jsA jsM. unfold call_hmrJSBundle.
  destruct (hmrJSBundle_spec (store_delta store) (store_graph store) options)
    as (recordsA & recordsM & Hrun & _).
  fold options. rewrite Hrun. simpl. fold jsA jsM.
  eexists _, _. split; [done|]. simpl.
  split_and!; [done..|apply options_after_up_to| | |].
  - intros module Hlast.
    rewrite (options_after_last options (jsA ++ jsM) module); [done|].
    rewrite last_app. by rewrite Hlast.
  - intros -> module Hlast. rewrite app_nil_r.
    by rewrite (options_after_last options jsA module).
  - by intros -> ->.
Qed.
End SerializerClaims.

(** * The claims on concrete inputs *)

Lemma hmrJSBundle_index_alignment_witness :
  ∃ payload options',
    hmrJSBundle Examples.delta Examples.diamond Examples.options
      = Return (payload, options')
    ∧ length (added payload) = 1
    ∧ length (addedSourceMappingURLs payload) = 1
    ∧ length (addedSourceURLs payload) = 1
    ∧ length (modified payload) = 1.
Proof.
  destruct (hmrJSBundle_index_alignment
              Examples.delta Examples.diamond Examples.options)
    as (payload & options' & Hrun & (H1 & H2 & H3 & _) & (H4 & _)).
  exists payload, options'.
  split_and!; [exact Hrun|exact H1|exact H2|exact H3|exact H4].
Defined.

Lemma getInverseDependencies_terminates_witness :
  getInverseDependencies "/root/a.js" Examples.cycle
  = Return [("/root/a.js", ["/root/b.js"]); ("/root/b.js", ["/root/a.js"])].
Proof.
  destruct (getInverseDependencies_terminates Examples.cycle "/root/a.js")
    as (_ & _ & Hcycle).
  eapply Hcycle;
    [discriminate|vm_compute; reflexivity|reflexivity
    |vm_compute; reflexivity|reflexivity].
Defined.

Lemma each_path_expanded_once_witness :
  ∃ r trace,
    getInverseDependencies_traced "/root/a.js" Examples.diamond
      = Return (r, trace)
    ∧ occurrences "/root/d.js" (lookups trace) = 1
    ∧ occurrences "/root/d.js" (expansions trace) = 1
    ∧ occurrences "/root/d.js" (JsObject.keys r) = 1.
Proof.
  destruct (each_path_expanded_once Examples.diamond "/root/a.js")
    as (r & trace & Htr & _ & _ & _ & _ & Hdiamond).
  exists r, trace. split; [exact Htr|].
  eapply (Hdiamond "/root/b.js" "/root/c.js" "/root/d.js");
    vm_compute; reflexivity.
Defined.

Lemma hmrJSBundle_deleted_witness :
  ∃ payload options',
    hmrJSBundle Examples.delta Examples.diamond Examples.options
      = Return (payload, options')
    ∧ deleted payload = [1%Z; 2%Z].
Proof.
  destruct (hmrJSBundle_deleted
              Examples.delta Examples.diamond Examples.options)
    as (payload & options' & Hrun & _ & Hids).
  exists payload, options'. split; [exact Hrun|].
  apply Hids; reflexivity.
Defined.

Lemma hmrJSBundle_excludes_non_js_witness :
  isJsModule (Examples.assetModule "/root/logo.png" ["/root/d.js"]) = false
  ∧ hmrJSBundle Examples.delta Examples.diamond Examples.options
    = hmrJSBundle
        {| delta_added :=
             [("/root/d.js", Examples.jsModule "/root/d.js" "d()" [])];
           delta_modified := delta_modified Examples.delta;
           delta_deleted := delta_deleted Examples.delta |}
        Examples.diamond Examples.options.
Proof.
  split; [reflexivity|].
  exact (proj1 (hmrJSBundle_excludes_non_js
                  Examples.diamond Examples.options
                  [("/root/d.js", Examples.jsModule "/root/d.js" "d()" [])]
                  [] (delta_modified Examples.delta)
                  (delta_deleted Examples.delta) "/root/logo.png"
                  (Examples.assetModule "/root/logo.png" ["/root/d.js"])
                  eq_refl)).
Defined.

Lemma hmrJSBundle_deterministic_witness :
  ∃ payload options1 options2,
    hmrJSBundle Examples.delta Examples.diamond Examples.options
      = Return (payload, options1)
    ∧ hmrJSBundle Examples.delta Examples.diamond
        (set_clientUrl_pathname "a.bundle" Examples.options)
      = Return (payload, options2).
Proof.
  destruct (hmrJSBundle_deterministic
              Examples.delta Examples.diamond Examples.options)
    as (payload & options1 & Hrun & _ & Hagain).
  destruct (Hagain (set_clientUrl_pathname "a.bundle" Examples.options))
    as (options2 & Hrun2); [intros v; reflexivity|intros m; reflexivity|].
  exists payload, options1, options2. split; [exact Hrun|exact Hrun2].
Defined.

Lemma leaf_module_parameter_witness :
  dependencies Examples.diamond !! "/root/d.js"
    = Some (Examples.jsModule "/root/d.js" "d()" [])
  ∧ getInverseDependencies "/root/d.js" Examples.diamond
    = Return [("/root/d.js", [])]
  ∧ _prepareModule (Examples.jsModule "/root/d.js" "d()" [])
      Examples.diamond Examples.options
    = Return "__d(function(){d()},4),{4:[]}".
Proof.
  assert (dependencies Examples.diamond !! "/root/d.js"
          = Some (Examples.jsModule "/root/d.js" "d()" [])) as Hget
    by (vm_compute; reflexivity).
  destruct (leaf_module_parameter
              (Examples.jsModule "/root/d.js" "d()" [])
              Examples.diamond Examples.options _ Hget eq_refl)
    as (Hinv & _ & Hcode).
  split_and!; [exact Hget|exact Hinv|].
  rewrite Hcode. vm_compute. reflexivity.
Defined.

(** C7, as the spec has it, fails: for the leaf d.js of the diamond the
    parameter is [{4: []}], not the empty mapping. *)
Lemma leaf_parameter_is_not_empty :
  dependencies Examples.diamond !! "/root/d.js"
    = Some (Examples.jsModule "/root/d.js" "d()" [])
  ∧ Mod.inverseDependencies (Examples.jsModule "/root/d.js" "d()" []) = []
  ∧ ∃ inv byId,
      getInverseDependencies "/root/d.js" Examples.diamond = Return inv
      ∧ translateInverseDependencies Examples.options inv = Return byId
      ∧ byId = [(4%Z, [])]
      ∧ byId ≠ JsObject.empty.
Proof.
  split; [vm_compute; reflexivity|]. split; [reflexivity|].
  exists [("/root/d.js", [])], [(4%Z, [])].
  split_and!; [vm_compute; reflexivity|vm_compute; reflexivity|reflexivity|].
  discriminate.
Qed.

Lemma missing_module_is_boundary_witness :
  dependencies Examples.pruned !! "/root/gone.js" = None
  ∧ getInverseDependencies "/root/gone.js" Examples.pruned
    = Return JsObject.empty
  ∧ ∃ r, getInverseDependencies "/root/b.js" Examples.pruned = Return r
         ∧ "/root/gone.js" ∉ JsObject.keys r.
Proof.
  assert (dependencies Examples.pruned !! "/root/gone.js" = None) as Hnone
    by (vm_compute; reflexivity).
  destruct (missing_module_is_boundary Examples.pruned "/root/gone.js" Hnone)
    as (_ & _ & Hstart & _ & Hkeys).
  split_and!; [exact Hnone|exact Hstart|apply Hkeys].
Defined.

Lemma hmrJSBundle_writes_pathname_witness :
  ∃ payload store',
    call_hmrJSBundle
      {| store_delta := Examples.delta;
         store_graph := Examples.diamond;
         store_options := Examples.options |}
      = Return (payload, store')
    ∧ store_graph store' = Examples.diamond
    ∧ store_delta store' = Examples.delta
    ∧ pathname (clientUrl (store_options store')) = "a.bundle".
Proof.
  destruct (hmrJSBundle_writes_pathname
              {| store_delta := Examples.delta;
                 store_graph := Examples.diamond;
                 store_options := Examples.options |})
    as (payload & store' & Hrun & Hgraph & Hdelta & _ & _ & Hlast & _).
  exists payload, store'.
  split_and!; [exact Hrun|exact Hgraph|exact Hdelta|].
  apply (Hlast (Examples.jsModule "/root/a.js" "a()"
                  ["/root/b.js"; "/root/c.js"])).
  reflexivity.
Defined.

Lemma inverse_dependency_map_entries_witness :
  ∃ r, getInverseDependencies "/root/b.js" Examples.pruned = Return r
       ∧ JsObject.get "/root/b.js" r = Some ["/root/gone.js"]
       ∧ "/root/gone.js" ∉ JsObject.keys r.
Proof.
  destruct (inverse_dependency_map_entries Examples.pruned "/root/b.js")
    as (r & Hr & Hentries).
  assert (getInverseDependencies "/root/b.js" Examples.pruned
          = Return [("/root/b.js", ["/root/gone.js"])]) as Hrun
    by (vm_compute; reflexivity).
  assert (r = [("/root/b.js", ["/root/gone.js"])]) as Heq by congruence.
  exists r. split; [exact Hr|].
  destruct (Hentries "/root/b.js") as (module & Hget & Hvalue & Hmissing).
  { rewrite Heq. simpl. left. }
  assert (module = Examples.jsModule "/root/b.js" "b()" ["/root/gone.js"])
    as Hmodule.
  { vm_compute in Hget. by injection Hget. }
  rewrite Hmodule in Hvalue, Hmissing.
  split; [exact Hvalue|].
  apply Hmissing; [simpl; left|vm_compute; reflexivity].
Defined.

(** * Further properties of the resolver *)

Lemma set_keys_elem {K V} `{EqDecision K} (k j : K) (v : V)
    (o : JsObject.t K V) :
  k ∈ JsObject.keys (JsObject.set j v o) ↔ k = j ∨ k ∈ JsObject.keys o.
Proof.
  induction o as [|[k' v'] o IH]; simpl.
  - set_solver.
  - destruct (decide (k' = j)) as [->|Hne]; simpl; [set_solver|].
    rewrite !elem_of_cons, IH. naive_solver.
Qed.

Section Reachability.
Context {T : Type} (graph : Graph T).
Implicit Types (acc r : InverseDependencyMap) (path start : string).

Lemma reaches_known start p : reaches graph start p → known graph start.
Proof. induction 1; auto. Qed.

Lemma reaches_trans start p q :
  reaches graph start p → reaches graph p q → reaches graph start q.
Proof.
  intros Hsp Hpq. induction Hpq as [|q' module x _ IH Hq' Hx Hk]; [done|].
  by eapply reaches_inverse.
Qed.

(** The keys that a call adds are reached from the path it is called
    on. *)
Lemma _getInverseDependencies_reaches fuel :
  ∀ path acc r,
    _getInverseDependencies fuel path graph acc = Return r →
    ∀ k, k ∈ JsObject.keys r →
         k ∈ JsObject.keys acc ∨ reaches graph path k.
Proof.
  induction fuel as [|fuel IH]; intros path acc r; [done|].
  rewrite _getInverseDependencies_S.
  destruct (JsObject.has path acc); [intros [= <-]; auto|].
  destruct (dependencies graph !! path) as [module|] eqn:Hget;
    [|intros [= <-]; auto].
  assert (known graph path) as Hkp by (by eexists).
  assert (Hloop : ∀ invs s,
    invs ⊆ Mod.inverseDependencies module →
    (∀ k, k ∈ JsObject.keys s →
          k ∈ JsObject.keys acc ∨ reaches graph path k) →
    for_of invs (visit graph fuel path) s = Return r →
    ∀ k, k ∈ JsObject.keys r →
         k ∈ JsObject.keys acc ∨ reaches graph path k).
  { induction invs as [|inverse invs IHinvs]; intros s Hsub Hs; simpl.
    { by intros [= <-]. }
    intros (s' & Hvisit & Hrest)%bind_Return.
    rewrite visit_unfold in Hvisit.
    apply bind_Return in Hvisit as (s1 & Hpush & Hcall).
    apply push_keys in Hpush.
    eapply (IHinvs s'); [set_solver| |exact Hrest].
    intros k Hk. destruct (IH _ _ _ Hcall k Hk) as [Hk1|Hreach].
    - rewrite Hpush in Hk1. by apply Hs.
    - right. apply reaches_trans with inverse; [|done].
      eapply reaches_inverse; [by apply reaches_start|exact Hget| |].
      + apply Hsub. by left.
      + by eapply reaches_known.
  }
  apply Hloop; [done|].
  intros k [->|Hk]%set_keys_elem; [right; by apply reaches_start|by left].
Qed.

(** A complete map that holds the known inverse dependencies of its
    entries holds everything reached from one of its keys. *)
Lemma closed_reaches r start p :
  complete graph r → closed_in graph (JsObject.keys r) r →
  (known graph start → start ∈ JsObject.keys r) →
  reaches graph start p → p ∈ JsObject.keys r.
Proof.
  intros Hc Hcl Hstart.
  induction 1 as [Hk|q module x _ IH Hq Hx Hkx]; [by apply Hstart|].
  destruct (complete_get graph r q Hc IH) as (module' & Hq' & _ & Hin).
  assert (module' = module) as -> by congruence.
  by eapply closed_in_elem.
Qed.

(** X1.  The keys of the resolved map are the start module and the modules
    that import it, directly or through other modules of the graph: no
    other path is a key, and none of these is missing. *)
Theorem resolution_keys_are_the_importers start :
  ∃ r, getInverseDependencies start graph = Return r
       ∧ ∀ p, p ∈ JsObject.keys r ↔ reaches graph start p.
Proof.
  destruct (getInverseDependencies_total graph start)
    as (r & Hr & Hc & _ & Hcl & Hstart).
  exists r. split; [done|]. intros p. split.
  - intros Hp.
    destruct (_getInverseDependencies_reaches _ _ _ _ Hr p Hp) as [Hin|?];
      [|done].
    by apply elem_of_nil in Hin.
  - by apply closed_reaches.
Qed.
End Reachability.

Lemma get_app_l {K V} `{EqDecision K} (k : K) (o1 o2 : JsObject.t K V) :
  k ∈ JsObject.keys o1 → JsObject.get k (o1 ++ o2) = JsObject.get k o1.
Proof.
  induction o1 as [|[k' v] o1 IH]; simpl; [by intros ?%elem_of_nil|].
  intros Hin. destruct (decide (k' = k)); [done|].
  apply elem_of_cons in Hin as [?|?]; [congruence|auto].
Qed.

Lemma listed_app (o1 o2 : InverseDependencyMap) :
  listed (o1 ++ o2) = listed o1 + listed o2.
Proof. apply sum_list_with_app. Qed.

Lemma push_listed (k x : string) (o o' : InverseDependencyMap) :
  JsObject.push k x o = Return o' → listed o' = S (listed o).
Proof.
  revert o'. induction o as [|[k' v] o IH]; intros o'; simpl; [done|].
  destruct (decide (k' = k)).
  - intros [= <-]. unfold listed. simpl. rewrite length_app. simpl. lia.
  - intros (o'' & Ho'' & [= <-])%bind_Return.
    unfold listed in *. simpl. rewrite (IH _ Ho''). lia.
Qed.

Section ResolverCost.
Context {T : Type} (graph : Graph T).
Implicit Types (acc r : InverseDependencyMap) (trace : list event).

(** X2.  A call that is given an accumulator only adds to it: the entries
    that were there stay as they were, in their place and with their value,
    and what follows them are complete entries under keys that were not
    there. *)
Theorem accumulator_is_only_extended fuel (path : string) acc r :
  _getInverseDependencies fuel path graph acc = Return r →
  ∃ new, r = acc ++ new
         ∧ JsObject.keys new ## JsObject.keys acc
         ∧ NoDup (JsObject.keys new)
         ∧ complete graph new
         ∧ ∀ k, k ∈ JsObject.keys acc →
                JsObject.get k r = JsObject.get k acc.
Proof.
  intros Hr.
  apply _getInverseDependencies_spec in Hr as (new & -> & Hc & Hnd & Hdisj).
  exists new. split_and!; [done..|]. intros k Hk. by apply get_app_l.
Qed.

(** One call looks up the graph at most once for itself and once for each
    inverse dependency that it lists. *)
Lemma _getInverseDependencies_traced_cost fuel :
  ∀ (path : string) acc trace acc' trace',
    _getInverseDependencies_traced fuel path graph (acc, trace)
      = Return (acc', trace') →
    length (lookups trace') + listed acc
    ≤ length (lookups trace) + 1 + listed acc'.
Proof.
  induction fuel as [|fuel IH]; intros path acc trace acc' trace'; simpl;
    [done|].
  assert (Hloop : ∀ invs acc1 trace1,
    for_of invs
      (λ inverse '(acc, trace),
         acc ← JsObject.push path inverse acc ;
         _getInverseDependencies_traced fuel inverse graph (acc, trace))
      (acc1, trace1) = Return (acc', trace') →
    length (lookups trace') + listed acc1
    ≤ length (lookups trace1) + listed acc').
  { induction invs as [|inverse invs IHinvs]; intros acc1 trace1; simpl.
    { intros [= <- <-]. lia. }
    intros ([acc2 trace2] & Hbody & Hrest)%bind_Return.
    apply bind_Return in Hbody as (acc1' & Hpush & Hcall).
    apply push_listed in Hpush. apply IH in Hcall. apply IHinvs in Hrest.
    lia. }
  destruct (JsObject.has path acc) eqn:Hhas; [intros [= <- <-]; lia|].
  apply has_false in Hhas.
  destruct (dependencies graph !! path) as [module|].
  2:{ intros [= <- <-]. unfold lookups. rewrite omap_app, length_app.
      simpl. lia. }
  rewrite (set_fresh _ _ _ Hhas). intros Hrun%Hloop.
  unfold lookups in *. rewrite !omap_app, !length_app in Hrun.
  rewrite listed_app in Hrun. unfold listed in Hrun at 2.
  simpl in Hrun. lia.
Qed.

(** X3.  The resolution asks the graph at most once for the start path and
    once for every inverse dependency listed in the map it returns, and the
    map has at most as many keys as the graph has modules. *)
Theorem resolution_lookups_are_bounded (start : string) :
  ∃ r trace,
    getInverseDependencies_traced start graph = Return (r, trace)
    ∧ getInverseDependencies start graph = Return r
    ∧ length (lookups trace) ≤ 1 + listed r
    ∧ length r ≤ size (dependencies graph).
Proof.
  destruct (getInverseDependencies_traced_total graph start)
    as (r & trace & Htr & Hr & _).
  exists r, trace. split_and!; [done..| |].
  - apply _getInverseDependencies_traced_cost in Htr.
    unfold listed in Htr at 1. simpl in Htr. lia.
  - destruct (getInverseDependencies_total graph start)
      as (r' & Hr' & Hc & Hnd & _).
    assert (r' = r) as -> by congruence.
    rewrite <- (length_fmap fst r). fold (JsObject.keys r).
    rewrite <- (size_list_to_set (C := gset string) _ Hnd).
    rewrite <- size_dom. apply subseteq_size.
    intros k Hk%elem_of_list_to_set.
    destruct (complete_get graph r k Hc Hk) as (module & Hget & _).
    apply elem_of_dom. by eexists.
Qed.
End ResolverCost.

(** A loop does not depend on what its body does outside the list. *)
Lemma for_of_ext_in {A S} (xs : list A) (body body' : A → S → completion S) :
  (∀ x, x ∈ xs → ∀ s, body x s = body' x s) →
  ∀ s, for_of xs body s = for_of xs body' s.
Proof.
  induction xs as [|x xs IH]; intros Hbody s; simpl; [done|].
  rewrite (Hbody x) by (by left).
  destruct (body' x s); simpl; [|done..].
  apply IH. intros y Hy. apply Hbody. by right.
Qed.

Section ResolverComposition.
Context {T : Type}.
Implicit Types (graph : Graph T) (acc r : InverseDependencyMap).

(** X4.  Resolving a second path into the map resolved for a first one
    yields the map of both: its keys are the modules reached from the
    first path or from the second, and the entries of the first resolution
    are not computed again. *)
Theorem resolutions_accumulate graph (start1 start2 : string) r1 :
  getInverseDependencies start1 graph = Return r1 →
  ∃ new,
    (∀ fuel, unvisited graph r1 < fuel →
       _getInverseDependencies fuel start2 graph r1 = Return (r1 ++ new))
    ∧ JsObject.keys new ## JsObject.keys r1
    ∧ ∀ p, p ∈ JsObject.keys (r1 ++ new)
           ↔ reaches graph start1 p ∨ reaches graph start2 p.
Proof.
  intros Hr1.
  destruct (getInverseDependencies_total graph start1)
    as (r & Hr & Hc1 & _ & Hcl1 & Hstart1).
  assert (r = r1) as -> by congruence.
  destruct (_getInverseDependencies_total graph (S (unvisited graph r1))
              start2 r1) as (new & Hnew & Hc & _ & Hdisj & Hcl & Hstart2);
    [lia|].
  exists new. split_and!; [|done|].
  - intros fuel Hfuel.
    destruct (_getInverseDependencies_total graph fuel start2 r1 Hfuel)
      as (new' & Hnew' & _).
    rewrite Hnew'. f_equal.
    eapply _getInverseDependencies_fuel_irrelevant; eauto.
  - intros p. split.
    + intros Hp.
      destruct (_getInverseDependencies_reaches graph _ _ _ _ Hnew p Hp)
        as [Hin|?]; [|by right].
      destruct (_getInverseDependencies_reaches graph _ _ _ _ Hr1 p Hin)
        as [Hnil|?]; [|by left].
      by apply elem_of_nil in Hnil.
    + assert (complete graph (r1 ++ new)) as Hcall by (by apply Forall_app).
      assert (closed_in graph (JsObject.keys (r1 ++ new)) (r1 ++ new))
        as Hclall.
      { apply Forall_app. split; [|done].
        eapply closed_in_mono; [|exact Hcl1]. rewrite keys_app. set_solver. }
      intros [Hreach|Hreach].
      * rewrite keys_app. apply elem_of_app. left.
        by eapply closed_reaches.
      * by eapply closed_reaches.
Qed.

(** On the paths that a resolution queries, two graphs with the same
    inverse dependencies give the same calls. *)
Lemma _getInverseDependencies_local graph graph' fuel :
  ∀ (path : string) acc,
    (∀ p, queried graph path p →
          Mod.inverseDependencies <$> dependencies graph !! p
          = Mod.inverseDependencies <$> dependencies graph' !! p) →
    _getInverseDependencies fuel path graph acc
    = _getInverseDependencies fuel path graph' acc.
Proof.
  induction fuel as [|fuel IH]; intros path acc Hsame; [done|].
  rewrite !_getInverseDependencies_S.
  destruct (JsObject.has path acc); [done|].
  pose proof (Hsame path (or_introl eq_refl)) as Hpath.
  destruct (dependencies graph !! path) as [module|] eqn:Hget,
           (dependencies graph' !! path) as [module'|]; simpl in Hpath;
    try done.
  injection Hpath as <-.
  apply for_of_ext_in. intros inverse Hin s. rewrite !visit_unfold.
  destruct (JsObject.push path inverse s) as [s'| |]; simpl; [|done..].
  apply IH. intros p Hq. apply Hsame. right.
  assert (known graph path) as Hk by (by eexists).
  destruct Hq as [->|(q & moduleq & Hreach & Hq & Hp)].
  - exists path, module. split_and!; [by apply reaches_start|done..].
  - exists q, moduleq. split_and!; [|done..].
    apply reaches_trans with inverse; [|done].
    eapply reaches_inverse; [by apply reaches_start|exact Hget|done|].
    by eapply reaches_known.
Qed.

(** X5.  A resolution depends on the graph only through the inverse
    dependencies of the paths it queries, the start path and the inverse
    dependencies of the modules reached from it: a graph that differs
    elsewhere gives the same map. *)
Theorem resolution_reads_only_what_it_queries graph graph' (start : string) :
  (∀ p, queried graph start p →
        Mod.inverseDependencies <$> dependencies graph !! p
        = Mod.inverseDependencies <$> dependencies graph' !! p) →
  getInverseDependencies start graph = getInverseDependencies start graph'.
Proof.
  intros Hsame.
  destruct (getInverseDependencies_total graph start) as (r & Hr & _).
  destruct (getInverseDependencies_total graph' start) as (r' & Hr' & _).
  rewrite Hr, Hr'. f_equal. unfold getInverseDependencies in Hr, Hr'.
  rewrite (_getInverseDependencies_local graph graph' _ _ _ Hsame) in Hr.
  eapply _getInverseDependencies_fuel_irrelevant; eauto.
Qed.
End ResolverComposition.

(** * Further properties of the serializer *)

Section TableUpdates.
Context {K V : Type} `{EqDecision K}.
Implicit Types (o : JsObject.t K V) (k j : K).

Lemma get_entry k v o1 o2 :
  k ∉ JsObject.keys o1 → JsObject.get k (o1 ++ (k, v) :: o2) = Some v.
Proof.
  induction o1 as [|[k' v'] o1 IH]; simpl.
  - intros _. by rewrite decide_True.
  - intros [Hne Hnin]%not_elem_of_cons.
    rewrite decide_False by congruence. auto.
Qed.

Lemma get_set k j v o :
  JsObject.get k (JsObject.set j v o)
  = if decide (j = k) then Some v else JsObject.get k o.
Proof.
  induction o as [|[k' v'] o IH]; simpl.
  - by destruct (decide (j = k)).
  - destruct (decide (k' = j)) as [->|Hne]; simpl.
    + by destruct (decide (j = k)).
    + destruct (decide (k' = k)) as [->|]; [|done].
      by rewrite decide_False by congruence.
Qed.

Lemma set_NoDup j v o :
  NoDup (JsObject.keys o) → NoDup (JsObject.keys (JsObject.set j v o)).
Proof.
  induction o as [|[k' v'] o IH]; simpl.
  - intros _. apply NoDup_singleton.
  - intros [Hnin Hnd]%NoDup_cons.
    destruct (decide (k' = j)) as [->|Hne]; simpl.
    + by apply NoDup_cons.
    + apply NoDup_cons. split; [|auto].
      rewrite set_keys_elem. intros [?|?]; congruence.
Qed.
End TableUpdates.

Section Translation.
Context {T : Type} {helpers : Helpers T}.
Implicit Types (options : Options) (inv : InverseDependencyMap).
Implicit Types (byId : InverseDependenciesById).

(** The assignments of lines 130-134, one entry after the other. *)
Lemma translate_loop options inv :
  NoDup (JsObject.keys inv) →
  ∀ rest before byId,
    inv = before ++ rest →
    for_of (JsObject.keys rest)
      (λ path byId,
         match JsObject.get path inv with
         | None => TypeError
         | Some inverses =>
             Return (JsObject.set (createModuleId options path)
                       (map (createModuleId options) inverses) byId)
         end)
      byId
    = Return (foldl (λ byId e,
                       JsObject.set (translateEntry options e).1
                         (translateEntry options e).2 byId)
                byId rest).
Proof.
  intros Hnd. induction rest as [|[k v] rest IH]; intros before byId Hinv;
    simpl; [done|].
  rewrite Hinv at 1. rewrite get_entry.
  2:{ rewrite Hinv, keys_app in Hnd. simpl in Hnd.
      apply NoDup_app in Hnd as (_ & Hdisj & _).
      intros Hin. apply (Hdisj _ Hin). by left. }
  simpl. apply (IH (before ++ [(k, v)])). by rewrite <- app_assoc.
Qed.

Lemma translateInverseDependencies_fold options inv :
  NoDup (JsObject.keys inv) →
  translateInverseDependencies options inv
  = Return (foldl (λ byId e,
                     JsObject.set (translateEntry options e).1
                       (translateEntry options e).2 byId)
              JsObject.empty inv).
Proof.
  intros Hnd. by apply (translate_loop options inv Hnd inv []).
Qed.

Lemma translate_keys options :
  ∀ inv byId i,
    i ∈ JsObject.keys
          (foldl (λ byId e,
                    JsObject.set (translateEntry options e).1
                      (translateEntry options e).2 byId) byId inv)
    ↔ i ∈ JsObject.keys byId
      ∨ ∃ k, k ∈ JsObject.keys inv ∧ createModuleId options k = i.
Proof.
  induction inv as [|[k v] inv IH]; intros byId i; simpl.
  - split; [auto|]. intros [?|(k & ?%elem_of_nil & _)]; done.
  - rewrite IH, set_keys_elem. split.
    + intros [[->|?]|(k' & Hk' & <-)]; [|by left|].
      * right. exists k. split; [by left|done].
      * right. exists k'. split; [by right|done].
    + intros [?|(k' & [->|Hk']%elem_of_cons & <-)]; [by left; right| |].
      * by left; left.
      * right. by exists k'.
Qed.

Lemma translate_NoDup options :
  ∀ inv byId,
    NoDup (JsObject.keys byId) →
    NoDup (JsObject.keys
             (foldl (λ byId e,
                       JsObject.set (translateEntry options e).1
                         (translateEntry options e).2 byId) byId inv)).
Proof.
  induction inv as [|e inv IH]; intros byId Hnd; simpl; [done|].
  apply IH. by apply set_NoDup.
Qed.

Lemma translate_get_other options :
  ∀ inv byId i,
    (∀ k, k ∈ JsObject.keys inv → createModuleId options k ≠ i) →
    JsObject.get i
      (foldl (λ byId e,
                JsObject.set (translateEntry options e).1
                  (translateEntry options e).2 byId) byId inv)
    = JsObject.get i byId.
Proof.
  induction inv as [|[k v] inv IH]; intros byId i Hne; simpl; [done|].
  rewrite IH by (intros k' Hk'; apply Hne; by right).
  rewrite get_set. rewrite decide_False; [done|]. apply Hne. by left.
Qed.

(** X6.  The id-keyed object has one entry for each id of a key, and under
    the id of a key it holds the translated inverse dependencies of the
    last key with that id: when two paths share an id, the later one
    overwrites the earlier. *)
Theorem translation_last_key_wins options inv :
  NoDup (JsObject.keys inv) →
  ∃ byId,
    translateInverseDependencies options inv = Return byId
    ∧ NoDup (JsObject.keys byId)
    ∧ (∀ i, i ∈ JsObject.keys byId
            ↔ ∃ k, k ∈ JsObject.keys inv ∧ createModuleId options k = i)
    ∧ ∀ before k inverses after,
        inv = before ++ (k, inverses) :: after →
        (∀ k', k' ∈ JsObject.keys after →
               createModuleId options k' ≠ createModuleId options k) →
        JsObject.get (createModuleId options k) byId
        = Some (map (createModuleId options) inverses).
Proof.
  intros Hnd. eexists. split; [by apply translateInverseDependencies_fold|].
  split_and!.
  - apply translate_NoDup. constructor.
  - intros i. rewrite translate_keys. split; [|by right].
    intros [?%elem_of_nil|?]; done.
  - intros before k inverses after -> Hlast.
    rewrite foldl_app. cbn [foldl]. rewrite translate_get_other by done.
    rewrite get_set. by rewrite decide_True.
Qed.


End Translation.

Lemma for_of_concat {A S} (xs ys : list A) (body : A → S → completion S) s :
  for_of (xs ++ ys) body s = for_of xs body s ≫= for_of ys body.
Proof.
  revert s. induction xs as [|x xs IH]; intros s; simpl; [done|].
  destruct (body x s); simpl; auto.
Qed.

Section SerializerFurther.
Context {T : Type} {helpers : Helpers T}.
Implicit Types (module : Mod.t T) (graph : Graph T) (options : Options).
Implicit Types (delta : DeltaResult T).

(** X8.  The object added to the registration call of a module is keyed by
    the ids of the module and of the modules that import it, directly or
    not: it is the empty object exactly when the graph has no module at the
    path of the module. *)
Theorem injected_parameter_keys module graph options :
  ∃ inv byId,
    getInverseDependencies (Mod.path module) graph = Return inv
    ∧ translateInverseDependencies options inv = Return byId
    ∧ _prepareModule module graph options
      = Return (addParamsToDefineCall (wrapModule module options true) byId)
    ∧ (∀ i, i ∈ JsObject.keys byId
            ↔ ∃ p, reaches graph (Mod.path module) p
                   ∧ createModuleId options p = i)
    ∧ (byId = JsObject.empty
       ↔ dependencies graph !! Mod.path module = None).
Proof.
  destruct (getInverseDependencies_total graph (Mod.path module))
    as (inv & Hinv & Hc & Hnd & Hcl & Hstart).
  pose proof (translateInverseDependencies_fold options inv Hnd) as Hfold.
  assert (Hkeys : ∀ p, p ∈ JsObject.keys inv
                       ↔ reaches graph (Mod.path module) p).
  { intros p. split; [|by apply closed_reaches].
    intros Hp.
    destruct (_getInverseDependencies_reaches graph _ _ _ _ Hinv p Hp)
      as [Hin|?]; [|done].
    by apply elem_of_nil in Hin. }
  eexists inv, _. split_and!; [exact Hinv|exact Hfold| | |].
  - unfold _prepareModule. rewrite Hinv. simpl. by rewrite Hfold.
  - intros i. rewrite translate_keys. split.
    + intros [?%elem_of_nil|(p & Hp & <-)]; [done|].
      exists p. split; [by apply Hkeys|done].
    + intros (p & Hp & <-). right. exists p. split; [by apply Hkeys|done].
  - split.
    + intros Hempty.
      destruct (dependencies graph !! Mod.path module) eqn:Hget; [|done].
      assert (createModuleId options (Mod.path module)
              ∈ JsObject.keys (@JsObject.empty ModuleId (list ModuleId)))
        as Hin; [|by apply elem_of_nil in Hin].
      rewrite <- Hempty. apply translate_keys. right.
      exists (Mod.path module). split; [|done]. apply Hstart. by eexists.
    + intros Hnone. unfold getInverseDependencies in Hinv.
      rewrite _getInverseDependencies_S, Hnone in Hinv. simpl in Hinv.
      by injection Hinv as <-.
Qed.

Lemma prepared_functional graph options (js : list (Mod.t T)) records records' :
  prepared graph options js records → prepared graph options js records' →
  records = records'.
Proof.
  revert options records records'. induction js as [|module js IH];
    intros options records records'; simpl; [congruence|].
  intros (code & rest & -> & Hcode & Hrest)
         (code' & rest' & -> & Hcode' & Hrest').
  assert (code = code') as -> by congruence.
  f_equal. eauto.
Qed.

(** X9.  When no added and no modified module is a JS module, the added
    and the modified families are empty, the deleted ids are translated all
    the same, and the options object is not written. *)
Theorem nothing_eligible delta graph options :
  Forall (λ module, isJsModule module = false) (values (delta_added delta)) →
  Forall (λ module, isJsModule module = false)
    (values (delta_modified delta)) →
  hmrJSBundle delta graph options
  = Return
      ({| added := [];
          modified := [];
          deleted := map (createModuleId options) (delta_deleted delta);
          addedSourceMappingURLs := [];
          addedSourceURLs := [];
          modifiedSourceMappingURLs := [];
          modifiedSourceURLs := [] |}, options).
Proof.
  intros HA HM.
  assert (Hnone : ∀ modules : list (Mod.t T),
    Forall (λ module, isJsModule module = false) modules →
    filter isJsModule modules = []).
  { induction 1 as [|module modules Hjs _ IH]; [done|].
    rewrite filter_cons_False; [done|]. by apply Is_true_false. }
  destruct (hmrJSBundle_spec delta graph options)
    as (recordsA & recordsM & Hrun & HrA & HrM).
  rewrite (Hnone _ HA) in Hrun, HrA, HrM.
  rewrite (Hnone _ HM) in Hrun, HrM.
  simpl in *. by rewrite Hrun, HrA, HrM.
Qed.

(** X10.  The loop of [generateModules] composes: going through a list
    that is two lists one after the other gives the arrays of the first
    followed by the arrays of the second, the second list being processed
    with the options object as the first one has left it. *)
Theorem generateModules_of_concatenation
    (modules1 modules2 : list (Mod.t T)) graph options
    generated1 options1 generated2 options2 :
  generateModules modules1 graph options = Return (generated1, options1) →
  generateModules modules2 graph options1 = Return (generated2, options2) →
  generateModules (modules1 ++ modules2) graph options
  = Return
      ({| modules := modules generated1 ++ modules generated2;
          sourceMappingURLs :=
            sourceMappingURLs generated1 ++ sourceMappingURLs generated2;
          sourceURLs := sourceURLs generated1 ++ sourceURLs generated2 |},
       options2).
Proof.
  intros H1 H2.
  rewrite generateModules_unfold, for_of_concat.
  rewrite generateModules_unfold in H1. rewrite H1, bind_Return_l.
  destruct (generateModules_loop graph modules2 generated1 options1)
    as (records & -> & Hprep).
  destruct (generateModules_spec modules2 graph options1)
    as (records' & H2' & Hprep').
  rewrite H2 in H2'. injection H2' as -> ->. simpl.
  by rewrite (prepared_functional _ _ _ _ _ Hprep Hprep').
Qed.

(** X11.  The URL arrays and the deleted ids do not depend on the graph,
    nor on the pathname that the client URL has when the call begins: every
    source URL is formatted after the pathname has been overwritten. *)
Theorem urls_do_not_depend_on_graph delta graph graph' options (v : string) :
  ∃ payload options1 payload' options1',
    hmrJSBundle delta graph options = Return (payload, options1)
    ∧ hmrJSBundle delta graph' (set_clientUrl_pathname v options)
      = Return (payload', options1')
    ∧ addedSourceMappingURLs payload' = addedSourceMappingURLs payload
    ∧ addedSourceURLs payload' = addedSourceURLs payload
    ∧ modifiedSourceMappingURLs payload' = modifiedSourceMappingURLs payload
    ∧ modifiedSourceURLs payload' = modifiedSourceURLs payload
    ∧ deleted payload' = deleted payload.
Proof.
  destruct (hmrJSBundle_spec delta graph options)
    as (recordsA & recordsM & Hrun & _).
  destruct (hmrJSBundle_spec delta graph' (set_clientUrl_pathname v options))
    as (recordsA' & recordsM' & Hrun' & _).
  eexists _, _, _, _. split; [exact Hrun|]. split; [exact Hrun'|].
  simpl. split_and!; done.
Qed.

(** X12.  The added family is settled before the modified modules are
    looked at: it is the same for two deltas with the same added modules,
    whatever their modified and deleted parts. *)
Theorem added_family_ignores_the_rest delta delta' graph options :
  delta_added delta = delta_added delta' →
  ∃ payload options1 payload' options1',
    hmrJSBundle delta graph options = Return (payload, options1)
    ∧ hmrJSBundle delta' graph options = Return (payload', options1')
    ∧ added payload' = added payload
    ∧ addedSourceMappingURLs payload' = addedSourceMappingURLs payload
    ∧ addedSourceURLs payload' = addedSourceURLs payload.
Proof.
  intros Hadded.
  destruct (hmrJSBundle_spec delta graph options)
    as (recordsA & recordsM & Hrun & HA & _).
  destruct (hmrJSBundle_spec delta' graph options)
    as (recordsA' & recordsM' & Hrun' & HA' & _).
  eexists _, _, _, _. split; [exact Hrun|]. split; [exact Hrun'|].
  simpl. rewrite <- Hadded in HA' |- *.
  split_and!; [|done..]. symmetry. by eapply prepared_functional.
Qed.
Lemma prepared_separately graph options :
  (∀ module options v,
     wrapModule module (set_clientUrl_pathname v options) true
     = wrapModule module options true) →
  ∀ (js : list (Mod.t T)) start records,
    up_to_pathname options start →
    prepared graph start js records →
    Forall2 (λ module record,
               record.1 = createModuleId options (Mod.path module)
               ∧ _prepareModule module graph options = Return record.2)
      js records.
Proof.
  intros Hwrap. induction js as [|module js IH]; intros start records Hup;
    simpl.
  { intros ->. constructor. }
  intros (code & rest & -> & Hcode & Hrest). constructor.
  - simpl. split; [by rewrite (up_to_pathname_createModuleId _ _ Hup)|].
    rewrite <- Hcode. symmetry. apply _prepareModule_agree; [done|].
    rewrite <- (Hwrap module start EmptyString), <- (Hup EmptyString).
    apply Hwrap.
  - apply (IH _ _ (up_to_pathname_trans _ _ _ Hup
                     (up_to_pathname_set _ _)) Hrest).
Qed.

(** X13.  When [wrapModule] does not read the pathname of the client URL,
    the record of a module does not depend on the modules around it: its
    code is what [_prepareModule] returns for the module alone, with the
    options object as the caller passed it. *)
Theorem records_are_prepared_separately delta graph options :
  (∀ module options v,
     wrapModule module (set_clientUrl_pathname v options) true
     = wrapModule module options true) →
  ∃ payload options',
    hmrJSBundle delta graph options = Return (payload, options')
    ∧ Forall2 (λ module record,
                 record.1 = createModuleId options (Mod.path module)
                 ∧ _prepareModule module graph options = Return record.2)
        (filter isJsModule (values (delta_added delta))) (added payload)
    ∧ Forall2 (λ module record,
                 record.1 = createModuleId options (Mod.path module)
                 ∧ _prepareModule module graph options = Return record.2)
        (filter isJsModule (values (delta_modified delta)))
        (modified payload).
Proof.
  intros Hwrap.
  destruct (hmrJSBundle_spec delta graph options)
    as (recordsA & recordsM & Hrun & HA & HM).
  eexists _, _. split; [exact Hrun|]. simpl. split.
  - by eapply prepared_separately.
  - eapply prepared_separately; [done| |exact HM].
    apply options_after_up_to.
Qed.
End SerializerFurther.

(** * The further properties on concrete inputs *)

Lemma resolution_keys_are_the_importers_witness :
  ∃ r, getInverseDependencies "/root/b.js" Examples.diamond = Return r
       ∧ "/root/d.js" ∈ JsObject.keys r.
Proof.
  destruct (resolution_keys_are_the_importers Examples.diamond "/root/b.js")
    as (r & Hr & Hkeys).
  exists r. split; [exact Hr|]. apply Hkeys.
  eapply (reaches_inverse _ _ "/root/b.js").
  - apply reaches_start. eexists. vm_compute. reflexivity.
  - vm_compute. reflexivity.
  - simpl. left.
  - eexists. vm_compute. reflexivity.
Defined.

Lemma accumulator_is_only_extended_witness :
  ∃ r, _getInverseDependencies 5 "/root/b.js" Examples.diamond
         [("/root/x.js", ["/root/y.js"])] = Return r
       ∧ JsObject.get "/root/x.js" r = Some ["/root/y.js"].
Proof.
  assert (_getInverseDependencies 5 "/root/b.js" Examples.diamond
            [("/root/x.js", ["/root/y.js"])]
          = Return [("/root/x.js", ["/root/y.js"]);
                    ("/root/b.js", ["/root/d.js"]); ("/root/d.js", [])])
    as Hrun by (vm_compute; reflexivity).
  destruct (accumulator_is_only_extended Examples.diamond _ _ _ _ Hrun)
    as (new & _ & _ & _ & _ & Hget).
  eexists. split; [exact Hrun|].
  rewrite Hget; [reflexivity|]. simpl. left.
Defined.

Lemma resolutions_accumulate_witness :
  ∃ new,
    _getInverseDependencies 5 "/root/c.js" Examples.diamond
      [("/root/b.js", ["/root/d.js"]); ("/root/d.js", [])]
    = Return ([("/root/b.js", ["/root/d.js"]); ("/root/d.js", [])] ++ new)
    ∧ "/root/c.js" ∈ JsObject.keys
        ([("/root/b.js", ["/root/d.js"]); ("/root/d.js", [])] ++ new).
Proof.
  assert (getInverseDependencies "/root/b.js" Examples.diamond
          = Return [("/root/b.js", ["/root/d.js"]); ("/root/d.js", [])])
    as Hfirst by (vm_compute; reflexivity).
  destruct (resolutions_accumulate Examples.diamond
              "/root/b.js" "/root/c.js" _ Hfirst)
    as (new & Hrun & _ & Hkeys).
  exists new. split.
  - apply Hrun. vm_compute. lia.
  - apply Hkeys. right. apply reaches_start. eexists. vm_compute. reflexivity.
Defined.

Lemma resolution_reads_only_what_it_queries_witness :
  dependencies Scenarios.diamondAndMore !! "/root/z.js"
    ≠ dependencies Examples.diamond !! "/root/z.js"
  ∧ getInverseDependencies "/root/b.js" Examples.diamond
    = getInverseDependencies "/root/b.js" Scenarios.diamondAndMore.
Proof.
  split; [vm_compute; discriminate|].
  apply resolution_reads_only_what_it_queries.
  intros p [->|(q & module & Hreach & Hq & Hp)]; [vm_compute; reflexivity|].
  assert (q ∈ ["/root/b.js"; "/root/d.js"]) as Hin.
  { destruct (getInverseDependencies_total Examples.diamond "/root/b.js")
      as (r & Hr & Hc & _ & Hcl & Hstart).
    assert (r = [("/root/b.js", ["/root/d.js"]); ("/root/d.js", [])])
      as -> by (vm_compute in Hr; congruence).
    exact (closed_reaches Examples.diamond _ _ _ Hc Hcl Hstart Hreach). }
  apply elem_of_cons in Hin as [->|Hin].
  - vm_compute in Hq. injection Hq as <-. simpl in Hp.
    apply list_elem_of_singleton in Hp as ->. vm_compute. reflexivity.
  - apply list_elem_of_singleton in Hin as ->.
    vm_compute in Hq. injection Hq as <-. simpl in Hp.
    by apply elem_of_nil in Hp.
Defined.

Lemma translation_last_key_wins_witness :
  getInverseDependencies "/a.js" Scenarios.collide
    = Return [("/a.js", ["/root/a.js"]); ("/root/a.js", [])]
  ∧ createModuleId Examples.options "/a.js"
    = createModuleId Examples.options "/root/a.js"
  ∧ ∃ byId,
      translateInverseDependencies Examples.options
        [("/a.js", ["/root/a.js"]); ("/root/a.js", [])] = Return byId
      ∧ JsObject.keys byId = [1%Z]
      ∧ JsObject.get 1%Z byId = Some [].
Proof.
  split; [vm_compute; reflexivity|]. split; [reflexivity|].
  destruct (translation_last_key_wins Examples.options
              [("/a.js", ["/root/a.js"]); ("/root/a.js", [])])
    as (byId & Hrun & _ & _ & Hlast).
  { apply (bool_decide_unpack _). vm_compute. exact I. }
  exists byId. split; [exact Hrun|]. split.
  - vm_compute in Hrun. by injection Hrun as <-.
  - apply (Hlast [("/a.js", ["/root/a.js"])] "/root/a.js" [] []);
      [reflexivity|]. by intros k' ?%elem_of_nil.
Defined.


Lemma injected_parameter_keys_witness :
  ∃ byId,
    _prepareModule
      (Examples.jsModule "/root/a.js" "a()" ["/root/b.js"; "/root/c.js"])
      Examples.diamond Examples.options
    = Return (addParamsToDefineCall "__d(function(){a()},1)" byId)
    ∧ 4%Z ∈ JsObject.keys byId
    ∧ byId ≠ JsObject.empty.
Proof.
  destruct (injected_parameter_keys
              (Examples.jsModule "/root/a.js" "a()"
                 ["/root/b.js"; "/root/c.js"])
              Examples.diamond Examples.options)
    as (inv & byId & _ & _ & Hcode & Hkeys & Hempty).
  exists byId. split_and!; [exact Hcode| |].
  - apply Hkeys. exists "/root/d.js". split; [|reflexivity].
    eapply (reaches_inverse _ _ "/root/b.js").
    + eapply (reaches_inverse _ _ "/root/a.js").
      * apply reaches_start. eexists. vm_compute. reflexivity.
      * vm_compute. reflexivity.
      * simpl. left.
      * eexists. vm_compute. reflexivity.
    + vm_compute. reflexivity.
    + simpl. left.
    + eexists. vm_compute. reflexivity.
  - intros Hnone%Hempty. vm_compute in Hnone. discriminate.
Defined.

Lemma nothing_eligible_witness :
  hmrJSBundle Scenarios.assetsOnly Examples.diamond Examples.options
  = Return
      ({| added := [];
          modified := [];
          deleted := [1%Z];
          addedSourceMappingURLs := [];
          addedSourceURLs := [];
          modifiedSourceMappingURLs := [];
          modifiedSourceURLs := [] |}, Examples.options).
Proof.
  apply (nothing_eligible Scenarios.assetsOnly); repeat constructor.
Defined.

Lemma generateModules_of_concatenation_witness :
  ∃ generated1 generated2 options2,
    generateModules [Examples.jsModule "/root/d.js" "d()" []]
      Examples.diamond Examples.options
    = Return (generated1,
              set_clientUrl_pathname "d.bundle" Examples.options)
    ∧ generateModules
        [Examples.jsModule "/root/a.js" "a()" ["/root/b.js"; "/root/c.js"]]
        Examples.diamond (set_clientUrl_pathname "d.bundle" Examples.options)
      = Return (generated2, options2)
    ∧ generateModules
        [Examples.jsModule "/root/d.js" "d()" [];
         Examples.jsModule "/root/a.js" "a()" ["/root/b.js"; "/root/c.js"]]
        Examples.diamond Examples.options
      = Return
          ({| modules := modules generated1 ++ modules generated2;
              sourceMappingURLs :=
                sourceMappingURLs generated1 ++ sourceMappingURLs generated2;
              sourceURLs := sourceURLs generated1 ++ sourceURLs generated2 |},
           options2).
Proof.
  destruct (generateModules_spec
              [Examples.jsModule "/root/d.js" "d()" []]
              Examples.diamond Examples.options) as (records1 & H1 & _).
  destruct (generateModules_spec
              [Examples.jsModule "/root/a.js" "a()"
                 ["/root/b.js"; "/root/c.js"]]
              Examples.diamond
              (set_clientUrl_pathname "d.bundle" Examples.options))
    as (records2 & H2 & _).
  eexists _, _, _. split; [exact H1|]. split; [exact H2|].
  exact (generateModules_of_concatenation
           [Examples.jsModule "/root/d.js" "d()" []]
           [Examples.jsModule "/root/a.js" "a()"
              ["/root/b.js"; "/root/c.js"]]
           Examples.diamond Examples.options _ _ _ _ H1 H2).
Defined.

Lemma added_family_ignores_the_rest_witness :
  ∃ payload options1 payload' options1',
    hmrJSBundle Examples.delta Examples.diamond Examples.options
      = Return (payload, options1)
    ∧ hmrJSBundle
        {| delta_added := delta_added Examples.delta;
           delta_modified := [];
           delta_deleted := [] |}
        Examples.diamond Examples.options
      = Return (payload', options1')
    ∧ added payload' = added payload.
Proof.
  destruct (added_family_ignores_the_rest
              Examples.delta
              {| delta_added := delta_added Examples.delta;
                 delta_modified := [];
                 delta_deleted := [] |}
              Examples.diamond Examples.options eq_refl)
    as (payload & options1 & payload' & options1' & H1 & H2 & Hadded & _).
  exists payload, options1, payload', options1'.
  split_and!; [exact H1|exact H2|exact Hadded].
Defined.

Lemma records_are_prepared_separately_witness :
  ∃ payload options',
    hmrJSBundle Examples.delta Examples.diamond Examples.options
      = Return (payload, options')
    ∧ ∃ code,
        modified payload = [(1%Z, code)]
        ∧ _prepareModule
            (Examples.jsModule "/root/a.js" "a()"
               ["/root/b.js"; "/root/c.js"])
            Examples.diamond Examples.options
          = Return code.
Proof.
  destruct (records_are_prepared_separately
              Examples.delta Examples.diamond Examples.options)
    as (payload & options' & Hrun & _ & HM); [intros; reflexivity|].
  exists payload, options'. split; [exact Hrun|].
  apply Forall2_cons_inv_l in HM
    as ([id code] & rest & [Hid Hcode] & ->%Forall2_nil_inv_l & ->).
  simpl in Hid, Hcode. exists code. split; [|exact Hcode].
  by rewrite Hid.
Defined.
